(** * Puissant transaction ordering (core/types/puissant.go)

    A shallow embedding of the priority-package comparisons, the merged-queue
    comparator and the [TransactionsPuissant] controller, together with the
    properties checked against the specification.

    Go values that are shared and mutated in place (the backing array of the
    queue, the per-account map, the enabled set) live in an explicit [Heap];
    a panic of the Go code is the result [None]. *)

From Stdlib Require Import ZArith Lia.
From stdpp Require Import base option list sorting gmap fin_maps fin_sets.

(** ** Data model *)

(** [common.Address] and [PuissantID] are fixed-size byte arrays, used here
    only as keys and compared for equality: they are read as numbers. *)
Abbreviation Address := N (only parsing).
Abbreviation PuissantID := N (only parsing).
Abbreviation loc := positive (only parsing).

(** Modelled from the spec: the [Transaction] type and its accessors
    ([GasPrice], [Time], [IsPuissant], [PuissantID], [PuissantInfo], [Hash])
    are declared outside the given sources.  A queue entry carries a gas
    price, an arrival time and the package descriptor
    (package id, package sequence, inner sequence); a transaction that belongs
    to no package carries the empty package id. *)
Record Transaction := mkTx {
  tx_hash : N;
  tx_gasPrice : Z;
  tx_time : Z;
  tx_puissantID : PuissantID;
  tx_puissantSeq : Z;
  tx_puissantTxSeq : Z
}.

Abbreviation Transactions := (list Transaction) (only parsing).

Definition emptyPuissantID : PuissantID := 0%N.

(** [pid.IsPuissant()] *)
Definition pidIsPuissant (pid : PuissantID) : bool :=
  negb (N.eqb pid emptyPuissantID).

Definition GasPrice (tx : Transaction) : Z := tx_gasPrice tx.
Definition Time (tx : Transaction) : Z := tx_time tx.
Definition TxPuissantID (tx : Transaction) : PuissantID := tx_puissantID tx.
Definition IsPuissant (tx : Transaction) : bool := pidIsPuissant (TxPuissantID tx).
Definition PuissantInfo (tx : Transaction) : PuissantID * Z * Z :=
  (tx_puissantID tx, tx_puissantSeq tx, tx_puissantTxSeq tx).

(** [Signer] is an interface of the surrounding package; [Sender] recovers the
    address a transaction was signed by.  The code drops the error of
    [Sender], so only the returned address matters. *)
Definition Signer := Transaction → Address.
Definition Sender (signer : Signer) (tx : Transaction) : Address := signer tx.

(** ** math/big values behind pointers

    A [*big.Int] is [option Z]: [None] is the nil pointer.  [Cmp] returns 0 on
    identical pointers without reading them, and otherwise reads both
    operands; [Mul] reads both operands. *)
Definition bigCmp (x y : option Z) : option Z :=
  match x, y with
  | None, None => Some 0%Z
  | Some a, Some b =>
      Some (match (a ?= b)%Z with Lt => (-1)%Z | Eq => 0%Z | Gt => 1%Z end)
  | _, _ => None
  end.

Definition bigMul (x y : option Z) : option Z :=
  match x, y with
  | Some a, Some b => Some (a * b)%Z
  | _, _ => None
  end.

(** Conversion of a machine integer to [int64] and [int64] addition wrap. *)
Definition wrap_int64 (z : Z) : Z :=
  ((z + 2 ^ 63) mod 2 ^ 64 - 2 ^ 63)%Z.

Definition uint64_range (z : Z) : Prop := (0 ≤ z < 2 ^ 64)%Z.

(** ** PuissantPackage *)

Record PuissantPackage := mkPackage {
  pp_id : PuissantID;
  pp_txs : Transactions;
  pp_maxTimestamp : Z;
  pp_bidGasPrice : option Z
}.

Abbreviation PuissantPackages := (list PuissantPackage) (only parsing).

(** [txs[0]] panics on an empty list; [GasPrice()] returns a fresh non-nil
    big integer. *)
Definition NewPuissantPackage (pid : PuissantID) (txs : Transactions) (maxTS : Z)
  : option PuissantPackage :=
  tx0 ← txs !! 0;
  Some {| pp_id := pid; pp_txs := txs; pp_maxTimestamp := maxTS;
          pp_bidGasPrice := Some (GasPrice tx0) |}.

Definition ID (pp : PuissantPackage) : PuissantID := pp_id pp.
Definition ExpireAt (pp : PuissantPackage) : Z := pp_maxTimestamp pp.
Definition Txs (pp : PuissantPackage) : Transactions := pp_txs pp.
Definition TxCount (pp : PuissantPackage) : nat := length (pp_txs pp).

Definition HigherBidGasPrice (pp with_ : PuissantPackage) : option bool :=
  c ← bigCmp (pp_bidGasPrice pp) (pp_bidGasPrice with_);
  Some (0 <? c)%Z.

Definition ReplacedByNewPuissant (pp np : PuissantPackage) (priceBump : Z)
  : option bool :=
  oldP ← bigMul (pp_bidGasPrice pp)
                (Some (wrap_int64 (100 + wrap_int64 priceBump)));
  newP ← bigMul (pp_bidGasPrice np) (Some 100%Z);
  c ← bigCmp (Some newP) (Some oldP);
  Some (0 <? c)%Z.

Definition HigherBidGasPriceIntCmp (pp : PuissantPackage) (with_ : option Z)
  : option bool :=
  c ← bigCmp (pp_bidGasPrice pp) with_;
  Some (0 <? c)%Z.

(** [new(big.Int).Set(nil)] reads the nil pointer. *)
Definition BidGasPrice (pp : PuissantPackage) : option Z := pp_bidGasPrice pp.

(** ** The merged-queue comparator *)

Definition bundleSort (txI txJ : Transaction) : bool :=
  let '(_, txIBSeq, txIInnerSeq) := PuissantInfo txI in
  let '(_, txJBSeq, txJInnerSeq) := PuissantInfo txJ in
  if (txIBSeq =? txJBSeq)%Z then (txIInnerSeq <? txJInnerSeq)%Z
  else (txIBSeq <? txJBSeq)%Z.

(** The body of [puissantTxQueue.Less] on the two entries read at [i], [j]. *)
Definition txLess (txI txJ : Transaction) : bool :=
  match bigCmp (Some (GasPrice txI)) (Some (GasPrice txJ)) with
  | Some cmp =>
      if (cmp =? 0)%Z then
        let iIsBundle := IsPuissant txI in
        let jIsBundle := IsPuissant txJ in
        if negb iIsBundle && negb jIsBundle then (Time txI <? Time txJ)%Z
        else if iIsBundle && jIsBundle then bundleSort txI txJ
        else if iIsBundle then true
        else if jIsBundle then false
        else (0 <? cmp)%Z
      else (0 <? cmp)%Z
  | None => false
  end.

Definition Len (s : Transactions) : nat := length s.

Definition Less (s : Transactions) (i j : nat) : option bool :=
  txI ← s !! i; txJ ← s !! j; Some (txLess txI txJ).

(** [sort.Sort] is Go's library sort: it returns a permutation of its input in
    which no entry is [Less] than an earlier one, and leaves the order of ties
    open.  The model fixes one such result. *)
Definition notAfter (a b : Transaction) : Prop := txLess b a = false.

Global Instance notAfter_dec a b : Decision (notAfter a b).
Proof. unfold notAfter. apply _. Defined.

Definition sort_queue (s : Transactions) : Transactions := merge_sort notAfter s.

(** ** Heap objects

    The three kinds of Go objects the controller mutates in place.  The
    per-account transaction lists are only re-sliced, never written, so they
    are values. *)
Record Heap := mkHeap {
  arrays : gmap loc (list Transaction);
  maps : gmap loc (gmap Address (list Transaction));
  sets : gmap loc (gset PuissantID)
}.

(** A slice header: backing array, start offset and length. *)
Record slice := mkSlice { sl_arr : loc; sl_off : nat; sl_len : nat }.

Definition slice_contents (h : Heap) (s : slice) : option Transactions :=
  arr ← arrays h !! sl_arr s;
  Some (take (sl_len s) (drop (sl_off s) arr)).

(** [s[i]]: panics when [i] is not below the length. *)
Definition slice_index (h : Heap) (s : slice) (i : nat) : option Transaction :=
  if decide (i < sl_len s) then
    arr ← arrays h !! sl_arr s; arr !! (sl_off s + i)
  else None.

(** [s[i] = x] *)
Definition slice_store (h : Heap) (s : slice) (i : nat) (x : Transaction)
  : option Heap :=
  if decide (i < sl_len s) then
    arr ← arrays h !! sl_arr s;
    if decide (sl_off s + i < length arr) then
      Some (mkHeap (<[sl_arr s := <[sl_off s + i := x]> arr]> (arrays h))
                   (maps h) (sets h))
    else None
  else None.

(** [s[1:]] *)
Definition slice_tail (s : slice) : slice :=
  {| sl_arr := sl_arr s; sl_off := S (sl_off s); sl_len := pred (sl_len s) |}.

(** [sort.Sort(&s)]: sorts the window of the backing array in place. *)
Definition sort_slice (h : Heap) (s : slice) : option Heap :=
  arr ← arrays h !! sl_arr s;
  let window := take (sl_len s) (drop (sl_off s) arr) in
  Some (mkHeap (<[sl_arr s := take (sl_off s) arr ++ sort_queue window
                                ++ drop (sl_off s + sl_len s) arr]> (arrays h))
               (maps h) (sets h)).

(** ** TransactionsPuissant *)

Record TransactionsPuissant := mkTP {
  tp_txs : loc;
  tp_txHeadsAndPuissant : slice;
  tp_signer : Signer;
  tp_enabled : loc
}.

(** One round of the loop over the caller's map: [acc] is the pair of the
    queue built so far and the map as mutated so far. *)
Definition newtx_step (signer : Signer)
    (acc : option (Transactions * gmap Address (list Transaction)))
    (entry : Address * list Transaction)
  : option (Transactions * gmap Address (list Transaction)) :=
  '(heads, m) ← acc;
  let '(from, accTxs) := entry in
  tx0 ← accTxs !! 0;
  if decide (Sender signer tx0 ≠ from) then Some (heads, delete from m)
  else Some (heads ++ [tx0], <[from := drop 1 accTxs]> m).

(** The constructor receives the caller's map by reference ([txs] is its
    location) and stores that same reference in the controller.  Go ranges
    over a map in an unspecified order; the model ranges in the order of
    [map_to_list], and the queue is sorted afterwards. *)
Definition NewTransactionsPuissant (h : Heap) (signer : Signer) (txs : loc)
    (packages : PuissantPackages) : option (Heap * TransactionsPuissant) :=
  m ← maps h !! txs;
  '(heads, m') ← foldl (newtx_step signer) (Some ([], m)) (map_to_list m);
  let headsAndBundleTxs :=
    foldl (λ q each, foldl (λ q tx, q ++ [tx]) q (Txs each)) heads packages in
  let sorted := sort_queue headsAndBundleTxs in
  let la := fresh (dom (arrays h)) in
  let ls := fresh (dom (sets h)) in
  Some (mkHeap (<[la := sorted]> (arrays h))
               (<[txs := m']> (maps h))
               (<[ls := ∅]> (sets h)),
        {| tp_txs := txs;
           tp_txHeadsAndPuissant := mkSlice la 0 (length sorted);
           tp_signer := signer;
           tp_enabled := ls |}).

Definition ResetEnable (h : Heap) (t : TransactionsPuissant) (pids : list PuissantID)
  : option Heap :=
  _ ← sets h !! tp_enabled t;
  let cleared : gset PuissantID := ∅ in
  Some (mkHeap (arrays h) (maps h)
               (<[tp_enabled t := foldl (λ s pid, s ∪ {[pid]}) cleared pids]> (sets h))).

(** [Copy] on a nil controller returns nil. *)
Definition Copy (h : Heap) (t : option TransactionsPuissant)
  : option (Heap * option TransactionsPuissant) :=
  match t with
  | None => Some (h, None)
  | Some t =>
      contents ← slice_contents h (tp_txHeadsAndPuissant t);
      m ← maps h !! tp_txs t;
      en ← sets h !! tp_enabled t;
      let la := fresh (dom (arrays h)) in
      let lm := fresh (dom (maps h)) in
      let ls := fresh (dom (sets h)) in
      let txs := map_fold (λ acc txsTmp r, <[acc := txsTmp]> r) ∅ m in
      Some (mkHeap (<[la := contents]> (arrays h))
                   (<[lm := txs]> (maps h))
                   (<[ls := en]> (sets h)),
            Some {| tp_txs := lm;
                    tp_txHeadsAndPuissant :=
                      mkSlice la 0 (sl_len (tp_txHeadsAndPuissant t));
                    tp_signer := tp_signer t;
                    tp_enabled := ls |})
  end.

(** [Pop] only replaces the slice header held in the controller. *)
Definition Pop (t : TransactionsPuissant) : TransactionsPuissant :=
  if decide (0 < sl_len (tp_txHeadsAndPuissant t)) then
    {| tp_txs := tp_txs t;
       tp_txHeadsAndPuissant := slice_tail (tp_txHeadsAndPuissant t);
       tp_signer := tp_signer t;
       tp_enabled := tp_enabled t |}
  else t.

(** [Peek] calls itself after each [Pop]; every call shortens the queue, so
    the recursion is bounded by the queue length plus one. *)
Fixpoint Peek_rec (fuel : nat) (h : Heap) (t : TransactionsPuissant)
  : option (TransactionsPuissant * option Transaction) :=
  match fuel with
  | O => None
  | S fuel =>
      if decide (sl_len (tp_txHeadsAndPuissant t) = 0) then Some (t, None)
      else
        next ← slice_index h (tp_txHeadsAndPuissant t) 0;
        let pid := TxPuissantID next in
        if pidIsPuissant pid then
          en ← sets h !! tp_enabled t;
          if decide (pid ∈ en) then Some (t, Some next)
          else Peek_rec fuel h (Pop t)
        else Some (t, Some next)
  end.

Definition Peek (h : Heap) (t : TransactionsPuissant)
  : option (TransactionsPuissant * option Transaction) :=
  Peek_rec (S (sl_len (tp_txHeadsAndPuissant t))) h t.

Definition Shift (h : Heap) (t : TransactionsPuissant)
  : option (Heap * TransactionsPuissant) :=
  head ← slice_index h (tp_txHeadsAndPuissant t) 0;
  let acc := Sender (tp_signer t) head in
  if negb (IsPuissant head) then
    m ← maps h !! tp_txs t;
    match m !! acc with
    | Some (tx0 :: rest) =>
        h1 ← slice_store h (tp_txHeadsAndPuissant t) 0 tx0;
        let h2 := mkHeap (arrays h1) (<[tp_txs t := <[acc := rest]> m]> (maps h1))
                         (sets h1) in
        h3 ← sort_slice h2 (tp_txHeadsAndPuissant t);
        Some (h3, t)
    | _ => Some (h, Pop t)
    end
  else Some (h, Pop t).

(** ** Observations and runs *)

(** What a controller denotes in a heap: the queue contents, the per-account
    backlog and the enabled set. *)
Record View := mkView {
  v_queue : Transactions;
  v_backlog : gmap Address (list Transaction);
  v_enabled : gset PuissantID
}.

Definition view (h : Heap) (t : TransactionsPuissant) : option View :=
  q ← slice_contents h (tp_txHeadsAndPuissant t);
  m ← maps h !! tp_txs t;
  en ← sets h !! tp_enabled t;
  Some (mkView q m en).

Inductive Op :=
  | OpPeek
  | OpShift
  | OpPop
  | OpResetEnable (pids : list PuissantID).

Definition step (op : Op) (st : Heap * TransactionsPuissant)
  : option (Heap * TransactionsPuissant) :=
  let '(h, t) := st in
  match op with
  | OpPeek => '(t', _) ← Peek h t; Some (h, t')
  | OpShift => Shift h t
  | OpPop => Some (h, Pop t)
  | OpResetEnable pids => h' ← ResetEnable h t pids; Some (h', t)
  end.

Fixpoint run (ops : list Op) (st : Heap * TransactionsPuissant)
  : option (Heap * TransactionsPuissant) :=
  match ops with
  | [] => Some st
  | op :: ops => st' ← step op st; run ops st'
  end.

(** The consumer of section 2 when every candidate executes: peek, then
    advance, until nothing is left; the result lists the candidates in the
    order they were offered. *)
Fixpoint drain (fuel : nat) (st : Heap * TransactionsPuissant)
  : option (list Transaction) :=
  match fuel with
  | O => Some []
  | S fuel =>
      '(t', next) ← Peek st.1 st.2;
      match next with
      | None => Some []
      | Some tx => st' ← Shift st.1 t'; rest ← drain fuel st'; Some (tx :: rest)
      end
  end.

(** ** Specification-side definitions *)

(** The ordering of section 4.2, in the specification's words: gas price
    descending; at equal price, arrival time among plain transactions,
    (package sequence, inner sequence) among package transactions, and a
    package transaction before a plain one. *)
Definition ranks_before (a b : Transaction) : Prop :=
  (GasPrice b < GasPrice a)%Z ∨
  (GasPrice a = GasPrice b ∧
   ((IsPuissant a = false ∧ IsPuissant b = false ∧ (Time a < Time b)%Z) ∨
    (IsPuissant a = true ∧ IsPuissant b = true ∧
       ((tx_puissantSeq a < tx_puissantSeq b)%Z ∨
        (tx_puissantSeq a = tx_puissantSeq b ∧
         (tx_puissantTxSeq a < tx_puissantTxSeq b)%Z))) ∨
    (IsPuissant a = true ∧ IsPuissant b = false))).

(** Two entries the ordering does not separate. *)
Definition same_rank (a b : Transaction) : Prop :=
  GasPrice a = GasPrice b ∧ IsPuissant a = IsPuissant b ∧
  if IsPuissant a
  then tx_puissantSeq a = tx_puissantSeq b ∧ tx_puissantTxSeq a = tx_puissantTxSeq b
  else Time a = Time b.

(** The head an account contributes: the first transaction of its list when
    the signer check passes. *)
Definition checked_head (signer : Signer) (entry : Address * list Transaction)
  : option Transaction :=
  match entry.2 with
  | tx0 :: _ => if decide (Sender signer tx0 = entry.1) then Some tx0 else None
  | [] => None
  end.

Definition checked_heads (signer : Signer) (m : gmap Address (list Transaction))
  : Transactions :=
  omap (checked_head signer) (map_to_list m).

(** The backlog an account keeps: the rest of its list when the signer check
    passes, nothing otherwise. *)
Definition checked_backlog (signer : Signer) (from : Address)
    (o : option (list Transaction)) : option (list Transaction) :=
  match o with
  | Some (tx0 :: rest) =>
      if decide (Sender signer tx0 = from) then Some rest else None
  | _ => None
  end.

(** What one round of the constructor's loop does to the caller's map. *)
Definition newtx_update (signer : Signer) (m : gmap Address (list Transaction))
    (entry : Address * list Transaction) : gmap Address (list Transaction) :=
  match checked_backlog signer entry.1 (Some entry.2) with
  | Some rest => <[entry.1 := rest]> m
  | None => delete entry.1 m
  end.

(** Eligibility of a queue entry under an enabled set. *)
Definition eligible (en : gset PuissantID) (tx : Transaction) : bool :=
  negb (pidIsPuissant (TxPuissantID tx)) || bool_decide (TxPuissantID tx ∈ en).

Fixpoint purge (en : gset PuissantID) (q : Transactions) : Transactions :=
  match q with
  | [] => []
  | tx :: q' => if eligible en tx then q else purge en q'
  end.

(** The plain queue entries of one account. *)
Definition plain_of (signer : Signer) (A : Address) (q : Transactions)
  : Transactions :=
  filter (λ tx, IsPuissant tx = false ∧ Sender signer tx = A) q.

Definition all_of (signer : Signer) (A : Address) (q : Transactions)
  : Transactions :=
  filter (λ tx, Sender signer tx = A) q.

(** A package with a given bid price, for the comparisons. *)
Definition bid_package (bid : option Z) : PuissantPackage :=
  {| pp_id := 1%N; pp_txs := []; pp_maxTimestamp := 0; pp_bidGasPrice := bid |}.

(** A controller is well formed in a heap when its three objects are
    allocated and the queue header lies within its backing array. *)
Definition slice_wf (h : Heap) (s : slice) : Prop :=
  ∃ arr, arrays h !! sl_arr s = Some arr ∧ sl_off s + sl_len s ≤ length arr.

Definition tp_wf (h : Heap) (t : TransactionsPuissant) : Prop :=
  slice_wf h (tp_txHeadsAndPuissant t) ∧
  is_Some (maps h !! tp_txs t) ∧
  is_Some (sets h !! tp_enabled t).

(** Two controllers that share none of their heap objects. *)
Definition separate (t c : TransactionsPuissant) : Prop :=
  sl_arr (tp_txHeadsAndPuissant t) ≠ sl_arr (tp_txHeadsAndPuissant c) ∧
  tp_txs t ≠ tp_txs c ∧
  tp_enabled t ≠ tp_enabled c.

(** The input contract of the constructor (section 6): every account has at
    least one transaction, a list whose head is signed by the account key is
    that account's list throughout, and the transactions of a package carry a
    package id. *)
Definition input_wf (signer : Signer) (m : gmap Address (list Transaction))
    (packages : PuissantPackages) : Prop :=
  map_Forall (λ A l, l ≠ [] ∧
     ∀ tx0, head l = Some tx0 → Sender signer tx0 = A →
            Forall (λ tx, Sender signer tx = A) l) m ∧
  Forall (λ p, Forall (λ tx, IsPuissant tx = true) (Txs p)) packages.

(** Account sequencing, relative to the lists [orig] the controller was
    built from: the queue holds at most one plain entry of an account, such
    an entry belongs to an account that has a backlog entry, and the plain
    entry (if any) followed by the backlog is a tail end of the account's
    original list. *)
Definition account_inv (signer : Signer) (orig : gmap Address (list Transaction))
    (v : View) : Prop :=
  ∀ A,
    length (plain_of signer A (v_queue v)) ≤ 1 ∧
    (plain_of signer A (v_queue v) ≠ [] → is_Some (v_backlog v !! A)) ∧
    (∀ bl, v_backlog v !! A = Some bl →
       ∃ l, orig !! A = Some l ∧
            (plain_of signer A (v_queue v) ++ bl) `suffix_of` l ∧
            Forall (λ tx, Sender signer tx = A) bl).

(** ** A concrete assembly round

    The scenario of section 8: account 1 with [a1; a2], account 2 with [b1],
    and one package (id 9, sequence 1) with [p1; p2].  The signer reads the
    account off the hash. *)
Global Instance Transaction_eq_dec : EqDecision Transaction.
Proof. solve_decision. Defined.

Definition ex_signer : Signer := λ tx, (tx_hash tx / 10)%N.

Definition ex_a1 : Transaction := mkTx 11 5 100 0 0 0.
Definition ex_a2 : Transaction := mkTx 12 5 101 0 0 0.
Definition ex_b1 : Transaction := mkTx 21 7 102 0 0 0.
Definition ex_p1 : Transaction := mkTx 31 5 0 9 1 0.
Definition ex_p2 : Transaction := mkTx 32 5 0 9 1 1.

Definition ex_package : PuissantPackage :=
  {| pp_id := 9%N; pp_txs := [ex_p1; ex_p2]; pp_maxTimestamp := 1000;
     pp_bidGasPrice := Some 5%Z |}.

Definition ex_input : gmap Address (list Transaction) :=
  <[1%N := [ex_a1; ex_a2]]> (<[2%N := [ex_b1]]> ∅).

(** The heap of the caller: its map lies at location 1. *)
Definition ex_heap : Heap :=
  mkHeap ∅ (<[1%positive := ex_input]> ∅) ∅.

Definition ex_backlog : gmap Address (list Transaction) :=
  <[1%N := [ex_a2]]> (<[2%N := []]> ∅).

(** The heap and the controller after construction. *)
Definition ex_built_heap : Heap :=
  mkHeap (<[1%positive := [ex_b1; ex_p1; ex_p2; ex_a1]]> ∅)
         (<[1%positive := ex_backlog]> ∅)
         (<[1%positive := ∅]> ∅).

Definition ex_built : TransactionsPuissant :=
  mkTP 1%positive (mkSlice 1%positive 0 4) ex_signer 1%positive.

(** The same controller after [b1] was popped, and after the two package
    transactions were dropped as well. *)
Definition ex_after_b1 : TransactionsPuissant :=
  mkTP 1%positive (mkSlice 1%positive 1 3) ex_signer 1%positive.

Definition ex_at_a1 : TransactionsPuissant :=
  mkTP 1%positive (mkSlice 1%positive 3 1) ex_signer 1%positive.

(** The heap and the controller that [Copy] adds to [ex_built_heap]. *)
Definition ex_copied_heap : Heap :=
  mkHeap (<[2%positive := [ex_b1; ex_p1; ex_p2; ex_a1]]>
            (<[1%positive := [ex_b1; ex_p1; ex_p2; ex_a1]]> ∅))
         (<[2%positive := ex_backlog]> (<[1%positive := ex_backlog]> ∅))
         (<[2%positive := ∅]> (<[1%positive := ∅]> ∅)).

Definition ex_copy : TransactionsPuissant :=
  mkTP 2%positive (mkSlice 2%positive 0 4) ex_signer 2%positive.

(** The heap and the controller built from an empty map and no package:
    the queue is empty. *)
Definition ex_empty_heap : Heap :=
  mkHeap (<[1%positive := []]> ∅) (<[1%positive := ∅]> ∅) (<[1%positive := ∅]> ∅).

Definition ex_empty : TransactionsPuissant :=
  mkTP 1%positive (mkSlice 1%positive 0 0) ex_signer 1%positive.

(** The heap of a caller whose map, at location 1, has no account. *)
Definition ex_no_accounts : Heap := mkHeap ∅ (<[1%positive := ∅]> ∅) ∅.

(** A state of the assembly loop in which account sequencing holds. *)
Definition sequenced (signer : Signer) (orig : gmap Address (list Transaction))
    (st : Heap * TransactionsPuissant) : Prop :=
  tp_wf st.1 st.2 ∧ tp_signer st.2 = signer ∧
  ∃ v, view st.1 st.2 = Some v ∧ account_inv signer orig v.

(** [frame c h h']: from [h] to [h'] only the three objects of the
    controller [c] may have changed. *)
Definition frame (c : TransactionsPuissant) (h h' : Heap) : Prop :=
  (∀ l, l ≠ sl_arr (tp_txHeadsAndPuissant c) → arrays h' !! l = arrays h !! l) ∧
  (∀ l, l ≠ tp_txs c → maps h' !! l = maps h !! l) ∧
  (∀ l, l ≠ tp_enabled c → sets h' !! l = sets h !! l).

Definition same_objects (c c' : TransactionsPuissant) : Prop :=
  sl_arr (tp_txHeadsAndPuissant c') = sl_arr (tp_txHeadsAndPuissant c) ∧
  tp_txs c' = tp_txs c ∧ tp_enabled c' = tp_enabled c ∧
  tp_signer c' = tp_signer c.

(** ** The sort interfaces of the two slice types *)

(** [s[i], s[j] = s[j], s[i]] on a slice: both elements are read first, and a
    read out of range panics. *)
Definition slice_swap {A} (s : list A) (i j : nat) : option (list A) :=
  xj ← s !! j; xi ← s !! i; Some (<[j := xi]> (<[i := xj]> s)).

Definition puissantTxQueue_Swap (s : Transactions) (i j : nat)
  : option Transactions := slice_swap s i j.

Definition PuissantPackages_Len (p : PuissantPackages) : nat := length p.

Definition PuissantPackages_Less (p : PuissantPackages) (i j : nat) : option bool :=
  pi ← p !! i; pj ← p !! j; HigherBidGasPrice pi pj.

Definition PuissantPackages_Swap (p : PuissantPackages) (i j : nat)
  : option PuissantPackages := slice_swap p i j.

(** ** The operations on what a controller denotes

    The effect of each operation on the queue, the backlog and the enabled
    set as values; [None] where the operation panics. *)
Definition view_step (signer : Signer) (op : Op) (v : View) : option View :=
  match op with
  | OpPeek =>
      Some (mkView (purge (v_enabled v) (v_queue v)) (v_backlog v) (v_enabled v))
  | OpShift =>
      match v_queue v with
      | [] => None
      | hd :: tl =>
          if IsPuissant hd then Some (mkView tl (v_backlog v) (v_enabled v))
          else
            match v_backlog v !! Sender signer hd with
            | Some (nx :: rest) =>
                Some (mkView (sort_queue (nx :: tl))
                             (<[Sender signer hd := rest]> (v_backlog v))
                             (v_enabled v))
            | _ => Some (mkView tl (v_backlog v) (v_enabled v))
            end
      end
  | OpPop => Some (mkView (tail (v_queue v)) (v_backlog v) (v_enabled v))
  | OpResetEnable pids =>
      Some (mkView (v_queue v) (v_backlog v) (list_to_set pids))
  end.

Fixpoint view_run (signer : Signer) (ops : list Op) (v : View) : option View :=
  match ops with
  | [] => Some v
  | op :: ops => v' ← view_step signer op v; view_run signer ops v'
  end.

(** The number of transactions a controller still holds: the queue and all
    backlogs. *)
Definition backlog_size (m : gmap Address (list Transaction)) : nat :=
  map_fold (λ _ l n, length l + n) 0 m.

Definition view_size (v : View) : nat :=
  length (v_queue v) + backlog_size (v_backlog v).

(** A transaction of the constructor's input: listed under some account or
    part of some package. *)
Definition from_input (m : gmap Address (list Transaction))
    (packages : PuissantPackages) (tx : Transaction) : Prop :=
  (∃ A l, m !! A = Some l ∧ tx ∈ l) ∨ (∃ p, p ∈ packages ∧ tx ∈ Txs p).

(** Every transaction of the queue and of the backlogs satisfies [S]. *)
Definition all_held (S : Transaction → Prop) (v : View) : Prop :=
  Forall S (v_queue v) ∧ map_Forall (λ _ l, Forall S l) (v_backlog v).

(** Packages as the constructor builds them, for the package comparisons. *)
Definition ex_pkg_low : PuissantPackage :=
  {| pp_id := 7%N; pp_txs := [ex_p1]; pp_maxTimestamp := 1000;
     pp_bidGasPrice := Some 5%Z |}.

Definition ex_pkg_high : PuissantPackage :=
  {| pp_id := 8%N; pp_txs := [ex_b1]; pp_maxTimestamp := 1000;
     pp_bidGasPrice := Some 7%Z |}.

(** The operation that changes the enabled set. *)
Definition resets (op : Op) : bool :=
  match op with OpResetEnable _ => true | _ => false end.



(** [ex_built_heap] after [Shift] on [ex_at_a1]: [a2] has taken the place of
    [a1], and account 1 has no backlog left. *)
Definition ex_shifted_heap : Heap :=
  mkHeap (<[1%positive := [ex_b1; ex_p1; ex_p2; ex_a2]]> ∅)
         (<[1%positive := <[1%N := []]> ex_backlog]> ∅)
         (<[1%positive := ∅]> ∅).

(** * Properties *)

(** ** Comparisons of big integers *)

Lemma bigCmp_concrete (a b : Z) :
  bigCmp (Some a) (Some b)
  = Some (match (a ?= b)%Z with Lt => (-1)%Z | Eq => 0%Z | Gt => 1%Z end).
Proof. reflexivity. Qed.

Lemma bigCmp_gt (a b : Z) :
  (c ← bigCmp (Some a) (Some b); Some (0 <? c)%Z) = Some (b <? a)%Z.
Proof.
  simpl. f_equal. destruct (Z.compare_spec a b) as [-> | Hlt | Hgt]; symmetry.
  - rewrite Z.ltb_irrefl. reflexivity.
  - apply Z.ltb_ge. lia.
  - apply Z.ltb_lt. lia.
Qed.

Lemma wrap_int64_small (z : Z) :
  (- 2 ^ 63 ≤ z < 2 ^ 63)%Z → wrap_int64 z = z.
Proof.
  intros Hz. unfold wrap_int64.
  rewrite Z.mod_small by lia. lia.
Qed.

(** ** The comparator (C1) *)

Section comparator.
Implicit Types a b c : Transaction.

Lemma txLess_unfold a b :
  txLess a b =
  if (GasPrice a =? GasPrice b)%Z then
    match IsPuissant a, IsPuissant b with
    | false, false => (Time a <? Time b)%Z
    | true, true => bundleSort a b
    | true, false => true
    | false, true => false
    end
  else (GasPrice b <? GasPrice a)%Z.
Proof.
  unfold txLess. rewrite bigCmp_concrete.
  destruct (Z.compare_spec (GasPrice a) (GasPrice b)) as [Heq | Hlt | Hgt].
  - rewrite Heq, (Z.eqb_refl (GasPrice b)). simpl.
    destruct (IsPuissant a), (IsPuissant b); reflexivity.
  - replace (GasPrice a =? GasPrice b)%Z with false
      by (symmetry; apply Z.eqb_neq; lia).
    simpl. symmetry. apply Z.ltb_ge. lia.
  - replace (GasPrice a =? GasPrice b)%Z with false
      by (symmetry; apply Z.eqb_neq; lia).
    simpl. symmetry. apply Z.ltb_lt. lia.
Qed.

Lemma bundleSort_spec a b :
  bundleSort a b = true ↔
  (tx_puissantSeq a < tx_puissantSeq b)%Z ∨
  (tx_puissantSeq a = tx_puissantSeq b ∧
   (tx_puissantTxSeq a < tx_puissantTxSeq b)%Z).
Proof.
  unfold bundleSort, PuissantInfo.
  destruct (Z.eqb_spec (tx_puissantSeq a) (tx_puissantSeq b)) as [Heq | Hne].
  - rewrite Z.ltb_lt. lia.
  - rewrite Z.ltb_lt. lia.
Qed.

Lemma txLess_ranks a b : txLess a b = true ↔ ranks_before a b.
Proof.
  rewrite txLess_unfold. unfold ranks_before.
  destruct (Z.eqb_spec (GasPrice a) (GasPrice b)) as [Heq | Hne].
  - destruct (IsPuissant a) eqn:Ha, (IsPuissant b) eqn:Hb.
    + rewrite bundleSort_spec. split.
      * intros Hs. right. split; [done|]. right. left. done.
      * intros [Hlt | [_ [(Hf & _) | [(_ & _ & Hs) | (_ & Hf)]]]];
          [lia | done | done | done].
    + split; [intros _; right; split; [done|]; right; right; done | done].
    + split; [done|].
      intros [Hlt | [_ [(_ & Hf & _) | [(Hf & _) | (Hf & _)]]]];
        [lia | done | done | done].
    + rewrite Z.ltb_lt. split.
      * intros Ht. right. split; [done|]. left. done.
      * intros [Hlt | [_ [(_ & _ & Ht) | [(Hf & _) | (Hf & _)]]]];
          [lia | done | done | done].
  - rewrite Z.ltb_lt. split.
    + intros Hlt. left. done.
    + intros [Hlt | [Heq _]]; [done | done].
Qed.

Lemma ranks_before_irrefl a : ¬ ranks_before a a.
Proof.
  unfold ranks_before.
  intros [Hlt | [_ [(_ & _ & Ht) | [(_ & _ & Hs) | (Ht & Hf)]]]];
    [lia | lia | lia | congruence].
Qed.

Lemma ranks_before_trans a b c :
  ranks_before a b → ranks_before b c → ranks_before a c.
Proof.
  unfold ranks_before.
  intros [Hab | [Eab Hab]] [Hbc | [Ebc Hbc]];
    [left; lia | left; lia | left; lia |].
  right. split; [congruence|].
  destruct Hab as [(Ha & Hb & Ht) | [(Ha & Hb & Hs) | (Ha & Hb)]],
           Hbc as [(Hb' & Hc & Ht') | [(Hb' & Hc & Hs') | (Hb' & Hc)]];
    try congruence.
  - left. repeat split; [done | done | lia].
  - right. left. repeat split; [done | done | lia].
  - right. right. done.
  - right. right. done.
Qed.

Lemma ranks_total a b :
  ¬ ranks_before a b → ¬ ranks_before b a → same_rank a b.
Proof.
  unfold ranks_before, same_rank. intros Hab Hba.
  assert (Hgp : GasPrice a = GasPrice b).
  { destruct (Z.lt_trichotomy (GasPrice a) (GasPrice b)) as [H | [H | H]];
      [exfalso; apply Hba; left; done | done | exfalso; apply Hab; left; done]. }
  split; [done|].
  destruct (IsPuissant a) eqn:Ha, (IsPuissant b) eqn:Hb.
  - split; [done|].
    destruct (Z.lt_trichotomy (tx_puissantSeq a) (tx_puissantSeq b))
      as [H | [H | H]].
    + exfalso. apply Hab. right. split; [done|]. right. left. auto.
    + split; [done|].
      destruct (Z.lt_trichotomy (tx_puissantTxSeq a) (tx_puissantTxSeq b))
        as [H' | [H' | H']]; [| done |].
      * exfalso. apply Hab. right. split; [done|]. right. left. auto.
      * exfalso. apply Hba. right. split; [done|]. right. left. auto.
    + exfalso. apply Hba. right. split; [done|]. right. left. auto.
  - exfalso. apply Hab. right. split; [done|]. right. right. done.
  - exfalso. apply Hba. right. split; [done|]. right. right. done.
  - split; [done|].
    destruct (Z.lt_trichotomy (Time a) (Time b)) as [H | [H | H]]; [| done |].
    + exfalso. apply Hab. right. split; [done|]. left. done.
    + exfalso. apply Hba. right. split; [done|]. left. done.
Qed.

Lemma txLess_false_iff a b : txLess a b = false ↔ ¬ ranks_before a b.
Proof. rewrite <- txLess_ranks. destruct (txLess a b); naive_solver. Qed.

(** Entries that do not rank before each other: ranking is preserved when
    one of them is replaced by the other. *)
Lemma same_rank_before_l a b c :
  same_rank a b → ranks_before a c → ranks_before b c.
Proof.
  unfold same_rank, ranks_before. intros (Hgp & Hp & Hk) Hac.
  rewrite <- Hp, <- Hgp.
  destruct (IsPuissant a) eqn:Ha;
    [destruct Hk as [Hs Hi]; rewrite <- Hs, <- Hi | rewrite <- Hk];
    intuition congruence.
Qed.

Lemma same_rank_before_r a b c :
  same_rank a b → ranks_before c a → ranks_before c b.
Proof.
  unfold same_rank, ranks_before. intros (Hgp & Hp & Hk) Hca.
  rewrite <- Hp, <- Hgp.
  destruct (IsPuissant a) eqn:Ha;
    [destruct Hk as [Hs Hi]; rewrite <- Hs, <- Hi | rewrite <- Hk];
    intuition congruence.
Qed.

Global Instance notAfter_total : Total notAfter.
Proof.
  intros a b. unfold notAfter. rewrite !txLess_false_iff.
  destruct (txLess a b) eqn:Hab.
  - left. apply txLess_ranks in Hab. intros Hba.
    exact (ranks_before_irrefl a (ranks_before_trans _ _ _ Hab Hba)).
  - right. by apply txLess_false_iff.
Qed.

Global Instance notAfter_trans : Transitive notAfter.
Proof.
  intros a b c. unfold notAfter. rewrite !txLess_false_iff.
  intros Hba Hcb Hca.
  destruct (txLess a b) eqn:Hab.
  - apply txLess_ranks in Hab. apply Hcb.
    exact (ranks_before_trans _ _ _ Hca Hab).
  - apply txLess_false_iff in Hab.
    apply Hcb. apply (same_rank_before_r a b c); [|done].
    by apply ranks_total.
Qed.
End comparator.

(** C1: [Less] is the ordering of section 4.2 read at the two indices: gas
    price descending, then at equal price arrival time among plain
    transactions, (package sequence, inner sequence) among package
    transactions, and a package transaction before a plain one.  It is
    irreflexive and transitive, and two entries that it leaves unordered have
    the same rank, so that it is a total order on ranks. *)
Theorem Less_is_the_merged_order :
  (∀ (s : list Transaction) i j a b, s !! i = Some a → s !! j = Some b →
     ∃ r, Less s i j = Some r ∧ (r = true ↔ ranks_before a b)) ∧
  (∀ a b, txLess a b = true ↔ ranks_before a b) ∧
  (∀ a, txLess a a = false) ∧
  (∀ a b c, txLess a b = true → txLess b c = true → txLess a c = true) ∧
  (∀ a b, txLess a b = false → txLess b a = false → same_rank a b).
Proof.
  split.
  { intros s i j a b Hi Hj. exists (txLess a b). split.
    - unfold Less. rewrite Hi, Hj. reflexivity.
    - apply txLess_ranks. }
  split; [exact txLess_ranks|]. split.
  { intros a. apply txLess_false_iff, ranks_before_irrefl. }
  split.
  { intros a b c. rewrite !txLess_ranks. apply ranks_before_trans. }
  intros a b. rewrite !txLess_false_iff. apply ranks_total.
Qed.

(** ** Bid comparisons (C6, C9) *)

(** For a bump the [int64] conversion and addition hold exactly, the test is
    the one of the specification. *)
Lemma ReplacedByNewPuissant_in_range (pp np : PuissantPackage) (old new bump : Z) :
  pp_bidGasPrice pp = Some old → pp_bidGasPrice np = Some new →
  (0 ≤ bump < 2 ^ 63 - 100)%Z →
  ReplacedByNewPuissant pp np bump
  = Some (bool_decide (old * (100 + bump) < new * 100)%Z).
Proof.
  intros Hold Hnew Hb. unfold ReplacedByNewPuissant. rewrite Hold, Hnew.
  rewrite (wrap_int64_small bump) by lia.
  rewrite (wrap_int64_small (100 + bump)) by lia.
  cbn [bigMul mbind option_bind].
  rewrite bigCmp_gt. f_equal.
  case_bool_decide as Hd.
  - apply Z.ltb_lt. done.
  - apply Z.ltb_ge. lia.
Qed.

(** The replacement threshold of section 8. *)
Lemma ReplacedByNewPuissant_threshold :
  ReplacedByNewPuissant (bid_package (Some 100%Z)) (bid_package (Some 110%Z)) 10
  = Some false ∧
  ReplacedByNewPuissant (bid_package (Some 100%Z)) (bid_package (Some 111%Z)) 10
  = Some true.
Proof. split; reflexivity. Qed.

(** C6: at the bump [2^63 - 100] (a value of the parameter's type [uint64])
    the sum [100 + int64(priceBump)] wraps to [-2^63]: the incumbent's side of
    the comparison becomes negative and an equal bid supersedes, although
    [100 * 100 > 100 * (100 + priceBump)] is false. *)
Theorem ReplacedByNewPuissant_wraps :
  uint64_range (2 ^ 63 - 100) ∧
  ReplacedByNewPuissant (bid_package (Some 100%Z)) (bid_package (Some 100%Z))
                        (2 ^ 63 - 100) = Some true ∧
  ¬ (100 * (100 + (2 ^ 63 - 100)) < 100 * 100)%Z.
Proof.
  split; [unfold uint64_range; lia|]. split; [vm_compute; reflexivity | lia].
Qed.

(** C9, as stated, fails: a comparison with an absent price on one side reads
    the nil pointer. *)
Lemma absent_bid_faults :
  HigherBidGasPrice (bid_package (Some 5%Z)) (bid_package None) = None ∧
  HigherBidGasPrice (bid_package None) (bid_package (Some 5%Z)) = None ∧
  HigherBidGasPriceIntCmp (bid_package (Some 5%Z)) None = None ∧
  ReplacedByNewPuissant (bid_package None) (bid_package (Some 5%Z)) 10 = None ∧
  ¬ (∀ pp with_, is_Some (HigherBidGasPrice pp with_)).
Proof.
  repeat split; try reflexivity.
  intros Hall.
  destruct (Hall (bid_package (Some 5%Z)) (bid_package None)) as [r Hr].
  discriminate Hr.
Qed.

(** C9, amended: when both prices are present the three comparisons return
    without fault, [HigherBidGasPrice] and [HigherBidGasPriceIntCmp] exactly
    when the first price is strictly above the second; a package built by
    [NewPuissantPackage] always carries a price, the gas price of its first
    transaction.  An absent price is not ranked below the others: the two
    [HigherBid] comparisons fault when exactly one side is absent, and
    [ReplacedByNewPuissant] faults when either side is. *)
Theorem concrete_bid_comparisons :
  (∀ pp with_ a b, pp_bidGasPrice pp = Some a → pp_bidGasPrice with_ = Some b →
     HigherBidGasPrice pp with_ = Some (bool_decide (b < a)%Z) ∧
     HigherBidGasPriceIntCmp pp (Some b) = Some (bool_decide (b < a)%Z) ∧
     ∀ bump, is_Some (ReplacedByNewPuissant pp with_ bump)) ∧
  (∀ pid txs maxTS pp, NewPuissantPackage pid txs maxTS = Some pp →
     ∃ tx0, txs !! 0 = Some tx0 ∧ pp_bidGasPrice pp = Some (GasPrice tx0)) ∧
  (∀ pp with_, HigherBidGasPrice pp with_ = None ↔
     (pp_bidGasPrice pp = None ↔ pp_bidGasPrice with_ ≠ None)) ∧
  (∀ pp price, HigherBidGasPriceIntCmp pp price = None ↔
     (pp_bidGasPrice pp = None ↔ price ≠ None)) ∧
  (∀ pp np bump, ReplacedByNewPuissant pp np bump = None ↔
     pp_bidGasPrice pp = None ∨ pp_bidGasPrice np = None).
Proof.
  split; [|split; [|split; [|split]]].
  - intros pp w a b Ha Hb.
    assert (Hd : (b <? a)%Z = bool_decide (b < a)%Z).
    { case_bool_decide; [by apply Z.ltb_lt | apply Z.ltb_ge; lia]. }
    unfold HigherBidGasPrice, HigherBidGasPriceIntCmp, ReplacedByNewPuissant.
    rewrite Ha, Hb. rewrite bigCmp_gt, Hd.
    split; [done|]. split; [done|].
    intros bump. cbn [bigMul mbind option_bind]. rewrite bigCmp_gt. eauto.
  - intros pid txs maxTS pp. unfold NewPuissantPackage.
    destruct (txs !! 0) as [tx0|]; [|done].
    simpl. intros [= <-]. eauto.
  - intros pp w. unfold HigherBidGasPrice.
    destruct (pp_bidGasPrice pp), (pp_bidGasPrice w); simpl; intuition congruence.
  - intros pp price. unfold HigherBidGasPriceIntCmp.
    destruct (pp_bidGasPrice pp), price; simpl; intuition congruence.
  - intros pp np bump. unfold ReplacedByNewPuissant.
    destruct (pp_bidGasPrice pp), (pp_bidGasPrice np); simpl; intuition congruence.
Qed.

(** ** Slices and the queue *)

Lemma sort_queue_Permutation (q : list Transaction) : sort_queue q ≡ₚ q.
Proof. apply merge_sort_Permutation. Qed.

Lemma sort_queue_sorted (q : list Transaction) :
  StronglySorted notAfter (sort_queue q).
Proof. apply StronglySorted_merge_sort; apply _. Qed.

Lemma sort_queue_length (q : list Transaction) :
  length (sort_queue q) = length q.
Proof. apply Permutation_length, sort_queue_Permutation. Qed.

Lemma slice_contents_length h s q :
  slice_wf h s → slice_contents h s = Some q → length q = sl_len s.
Proof.
  intros (arr & Harr & Hle). unfold slice_contents. rewrite Harr. simpl.
  intros [= <-]. rewrite length_take, length_drop. lia.
Qed.

Lemma slice_wf_contents h s : slice_wf h s → is_Some (slice_contents h s).
Proof.
  intros (arr & Harr & _). unfold slice_contents. rewrite Harr. simpl. eauto.
Qed.

Lemma slice_index_head h s q :
  slice_contents h s = Some q → slice_index h s 0 = head q.
Proof.
  unfold slice_contents, slice_index.
  destruct (arrays h !! sl_arr s) as [arr|]; [|done]. simpl.
  intros [= <-]. rewrite head_lookup.
  case_decide as Hlen.
  - rewrite lookup_take_lt by done. rewrite lookup_drop. done.
  - replace (sl_len s) with 0 by lia. done.
Qed.

Lemma slice_tail_contents h s q :
  slice_contents h s = Some q →
  0 < sl_len s → slice_contents h (slice_tail s) = Some (tail q).
Proof.
  unfold slice_contents, slice_tail. simpl.
  destruct (arrays h !! sl_arr s) as [arr|]; [|done]. simpl.
  intros [= <-] Hlen. f_equal.
  destruct (sl_len s) as [|n]; [lia|]. simpl.
  replace (S (sl_off s)) with (sl_off s + 1) by lia.
  rewrite <- drop_drop. destruct (drop (sl_off s) arr); [by destruct n | done].
Qed.

Lemma slice_tail_wf h s : slice_wf h s → 0 < sl_len s → slice_wf h (slice_tail s).
Proof.
  intros (arr & Harr & Hle) Hlen. exists arr. simpl. split; [done|]. lia.
Qed.

(** ** Pop *)

Lemma Pop_locs t :
  tp_txs (Pop t) = tp_txs t ∧ tp_enabled (Pop t) = tp_enabled t ∧
  tp_signer (Pop t) = tp_signer t ∧
  sl_arr (tp_txHeadsAndPuissant (Pop t)) = sl_arr (tp_txHeadsAndPuissant t).
Proof. unfold Pop. case_decide; done. Qed.

Lemma Pop_signer t : tp_signer (Pop t) = tp_signer t.
Proof. by destruct (Pop_locs t) as (_ & _ & -> & _). Qed.

Lemma Pop_empty t : sl_len (tp_txHeadsAndPuissant t) = 0 → Pop t = t.
Proof. intros Hlen. unfold Pop. case_decide; [lia | done]. Qed.

Lemma Pop_contents h t q :
  slice_contents h (tp_txHeadsAndPuissant t) = Some q →
  slice_contents h (tp_txHeadsAndPuissant (Pop t)) = Some (tail q).
Proof.
  intros Hq. unfold Pop. case_decide as Hlen; simpl.
  - by apply slice_tail_contents.
  - rewrite Hq. f_equal. revert Hq. unfold slice_contents.
    destruct (arrays h !! _) as [arr|]; [|done]. simpl. intros [= <-].
    replace (sl_len (tp_txHeadsAndPuissant t)) with 0 by lia. done.
Qed.

Lemma Pop_wf h t : tp_wf h t → tp_wf h (Pop t).
Proof.
  intros (Hs & Hm & He). unfold Pop. case_decide as Hlen; [|done].
  split; [|done]. simpl. by apply slice_tail_wf.
Qed.

Lemma Pop_view h t v :
  view h t = Some v →
  view h (Pop t) = Some (mkView (tail (v_queue v)) (v_backlog v) (v_enabled v)).
Proof.
  unfold view. destruct (Pop_locs t) as (-> & -> & _ & _).
  destruct (slice_contents h (tp_txHeadsAndPuissant t)) as [q|] eqn:Hq; [|done].
  rewrite (Pop_contents h t q Hq). simpl.
  destruct (maps h !! tp_txs t); [|done]. simpl.
  destruct (sets h !! tp_enabled t); [|done]. simpl.
  intros [= <-]. done.
Qed.

(** ** Peek *)

Lemma purge_split en (q : list Transaction) :
  ∃ dropped, q = dropped ++ purge en q ∧
    Forall (λ tx, eligible en tx = false) dropped ∧
    match purge en q with
    | [] => True
    | tx :: _ => eligible en tx = true
    end.
Proof.
  induction q as [|tx q IH]; simpl.
  - exists []. done.
  - destruct (eligible en tx) eqn:Hel.
    + exists []. done.
    + destruct IH as (dropped & Hq & Hall & Hhd).
      exists (tx :: dropped). split; [simpl; congruence|].
      split; [by constructor | done].
Qed.

Lemma Peek_rec_spec fuel h t q en :
  slice_wf h (tp_txHeadsAndPuissant t) →
  slice_contents h (tp_txHeadsAndPuissant t) = Some q →
  sets h !! tp_enabled t = Some en →
  sl_len (tp_txHeadsAndPuissant t) < fuel →
  ∃ t', Peek_rec fuel h t = Some (t', head (purge en q)) ∧
        slice_contents h (tp_txHeadsAndPuissant t') = Some (purge en q) ∧
        slice_wf h (tp_txHeadsAndPuissant t') ∧
        tp_txs t' = tp_txs t ∧ tp_enabled t' = tp_enabled t ∧
        tp_signer t' = tp_signer t ∧
        sl_arr (tp_txHeadsAndPuissant t') = sl_arr (tp_txHeadsAndPuissant t).
Proof.
  revert t q. induction fuel as [|fuel IH]; intros t q Hwf Hq Hen Hfuel; [lia|].
  pose proof (slice_contents_length _ _ _ Hwf Hq) as Hlen.
  simpl. case_decide as Hz.
  - destruct q; [|simpl in Hlen; lia]. exists t. simpl. done.
  - rewrite (slice_index_head _ _ _ Hq).
    destruct q as [|next q]; [simpl in Hlen; lia|]. simpl.
    unfold eligible. destruct (pidIsPuissant (TxPuissantID next)) eqn:Hp; simpl.
    + rewrite Hen. simpl. case_decide as Hin.
      * rewrite bool_decide_eq_true_2 by done. exists t. simpl. done.
      * rewrite bool_decide_eq_false_2 by done.
        destruct (Pop_locs t) as (Htxs & Henab & Hsig & Harr).
        destruct (IH (Pop t) q) as (t' & HP & Hq' & Hwf' & ? & ? & ? & ?).
        { unfold Pop. case_decide; [|lia]. simpl. apply slice_tail_wf; [done | lia]. }
        { by rewrite (Pop_contents h t _ Hq). }
        { by rewrite Henab. }
        { unfold Pop. case_decide; simpl; lia. }
        exists t'. repeat split; try congruence; done.
    + exists t. simpl. done.
Qed.

Lemma view_inv h t v :
  view h t = Some v →
  slice_contents h (tp_txHeadsAndPuissant t) = Some (v_queue v) ∧
  maps h !! tp_txs t = Some (v_backlog v) ∧
  sets h !! tp_enabled t = Some (v_enabled v).
Proof.
  unfold view.
  destruct (slice_contents h _) as [q|]; [|done].
  destruct (maps h !! _) as [m|]; [|done].
  destruct (sets h !! _) as [en|]; [|done].
  simpl. intros [= <-]. done.
Qed.

Lemma Peek_view h t v :
  tp_wf h t → view h t = Some v →
  ∃ t', Peek h t = Some (t', head (purge (v_enabled v) (v_queue v))) ∧
        view h t' = Some (mkView (purge (v_enabled v) (v_queue v))
                                 (v_backlog v) (v_enabled v)) ∧
        tp_wf h t' ∧ tp_signer t' = tp_signer t.
Proof.
  intros (Hs & Hm & He) Hv.
  destruct (view_inv _ _ _ Hv) as (Hq & Hmap & Hen).
  destruct (Peek_rec_spec (S (sl_len (tp_txHeadsAndPuissant t))) h t
              (v_queue v) (v_enabled v))
    as (t' & HP & Hq' & Hwf' & Htxs & Henab & Hsig & Harr);
    [done | done | done | lia |].
  exists t'. split; [exact HP|]. split.
  { unfold view. rewrite Hq', Htxs, Henab, Hmap, Hen. done. }
  split; [|done]. split; [done|]. by rewrite Htxs, Henab.
Qed.

(** C3: [Peek] never faults on a well-formed controller.  It leaves the heap
    alone and returns the controller with a prefix of ineligible entries
    (package transactions whose id is not enabled) removed from the queue;
    the result is the first remaining entry, which is eligible and stays in
    the queue, or nil when nothing remains, in particular on an empty queue. *)
Theorem Peek_purges_then_returns_head h t v :
  tp_wf h t → view h t = Some v →
  ∃ t' dropped rest,
    Peek h t = Some (t', head rest) ∧
    view h t' = Some (mkView rest (v_backlog v) (v_enabled v)) ∧
    rest = purge (v_enabled v) (v_queue v) ∧
    v_queue v = dropped ++ rest ∧
    Forall (λ tx, eligible (v_enabled v) tx = false) dropped ∧
    (∀ tx, head rest = Some tx → eligible (v_enabled v) tx = true) ∧
    (v_queue v = [] → Peek h t = Some (t, None)).
Proof.
  intros Hwf Hv.
  destruct (Peek_view h t v Hwf Hv) as (t' & HP & Hv' & _ & _).
  destruct (purge_split (v_enabled v) (v_queue v)) as (dropped & Hsplit & Hall & Hhd).
  exists t', dropped, (purge (v_enabled v) (v_queue v)).
  split; [exact HP|]. split; [exact Hv'|].
  split; [done|]. split; [done|]. split; [done|]. split.
  { intros tx Htx. destruct (purge (v_enabled v) (v_queue v)); [done|].
    simpl in Htx. by injection Htx as ->. }
  intros Hnil. destruct Hwf as (Hs & _ & _).
  destruct (view_inv _ _ _ Hv) as (Hq & _ & _).
  pose proof (slice_contents_length _ _ _ Hs Hq) as Hlen.
  rewrite Hnil in Hlen. simpl in Hlen.
  unfold Peek. simpl. case_decide; [done | lia].
Qed.

(** ** Shift *)

Lemma window_store (arr : list Transaction) off len x hd tl :
  take len (drop off arr) = hd :: tl →
  take len (drop off (<[off + 0 := x]> arr)) = x :: tl.
Proof.
  intros Hw. rewrite drop_insert_ge by lia.
  replace (off + 0 - off) with 0 by lia.
  assert (0 < len) by (destruct len; [done | lia]).
  rewrite take_insert_lt by done. rewrite Hw. done.
Qed.

Lemma window_sorted (arr sorted : list Transaction) off len :
  off ≤ length arr → length sorted = len →
  take len (drop off (take off arr ++ sorted ++ drop (off + len) arr)) = sorted.
Proof.
  intros Hoff Hlen.
  rewrite drop_app_length' by (rewrite length_take; lia).
  by rewrite take_app_length'.
Qed.

Lemma Shift_replace h t hd tl m en nx rest :
  tp_wf h t → view h t = Some (mkView (hd :: tl) m en) →
  IsPuissant hd = false →
  m !! Sender (tp_signer t) hd = Some (nx :: rest) →
  ∃ h', Shift h t = Some (h', t) ∧
        view h' t = Some (mkView (sort_queue (nx :: tl))
                                 (<[Sender (tp_signer t) hd := rest]> m) en) ∧
        tp_wf h' t.
Proof.
  intros (Hs & Hm & He) Hv Hplain Hacc.
  destruct (view_inv _ _ _ Hv) as (Hq & Hmap & Hen). simpl in *.
  pose proof (slice_contents_length _ _ _ Hs Hq) as Hlen. simpl in Hlen.
  destruct Hs as (arr & Harr & Hle).
  assert (Hw : take (sl_len (tp_txHeadsAndPuissant t))
                 (drop (sl_off (tp_txHeadsAndPuissant t)) arr) = hd :: tl).
  { revert Hq. unfold slice_contents. rewrite Harr. simpl. congruence. }
  unfold Shift. rewrite (slice_index_head _ _ _ Hq). simpl.
  rewrite Hplain. simpl. rewrite Hmap. simpl. rewrite Hacc.
  unfold slice_store. rewrite decide_True by lia. rewrite Harr. simpl.
  rewrite decide_True by lia. simpl.
  unfold sort_slice. simpl. rewrite lookup_insert_eq. simpl.
  rewrite (window_store _ _ _ nx hd tl Hw).
  eexists. split; [reflexivity|].
  assert (Hsl : length (sort_queue (nx :: tl)) = sl_len (tp_txHeadsAndPuissant t)).
  { rewrite sort_queue_length. simpl. lia. }
  split.
  - unfold view, slice_contents. simpl. rewrite !lookup_insert_eq. simpl.
    rewrite window_sorted; [| rewrite length_insert; lia | done].
    rewrite Hen. done.
  - split; [|split; simpl; [rewrite lookup_insert_eq; eauto | done]].
    eexists. simpl. split; [apply lookup_insert_eq|].
    rewrite !length_app, length_take, length_drop, length_insert, Hsl. lia.
Qed.

Lemma Shift_drop h t hd tl m en :
  view h t = Some (mkView (hd :: tl) m en) →
  IsPuissant hd = true ∨ m !! Sender (tp_signer t) hd = None
    ∨ m !! Sender (tp_signer t) hd = Some [] →
  Shift h t = Some (h, Pop t).
Proof.
  intros Hv Hcase.
  destruct (view_inv _ _ _ Hv) as (Hq & Hmap & Hen). simpl in *.
  unfold Shift. rewrite (slice_index_head _ _ _ Hq). simpl.
  destruct (IsPuissant hd) eqn:Hp; simpl; [done|].
  rewrite Hmap. simpl.
  destruct Hcase as [Hf | [-> | ->]]; done.
Qed.

Lemma Shift_empty h t :
  sl_len (tp_txHeadsAndPuissant t) = 0 → Shift h t = None.
Proof.
  intros Hlen. unfold Shift, slice_index.
  rewrite decide_False by lia. done.
Qed.

(** C4: on a non-empty queue whose head is a plain transaction with backlog
    left, [Shift] writes the account's next transaction over the head, keeps
    the rest of the backlog under the account, and sorts the whole queue; in
    the other cases (package head, or no backlog left) it does what [Pop]
    does, removing the head. *)
Theorem Shift_replaces_head_or_pops h t hd tl m en :
  tp_wf h t → view h t = Some (mkView (hd :: tl) m en) →
  (∀ nx rest, IsPuissant hd = false →
     m !! Sender (tp_signer t) hd = Some (nx :: rest) →
     ∃ h', Shift h t = Some (h', t) ∧
           view h' t = Some (mkView (sort_queue (nx :: tl))
                                    (<[Sender (tp_signer t) hd := rest]> m) en) ∧
           sort_queue (nx :: tl) ≡ₚ nx :: tl ∧
           StronglySorted notAfter (sort_queue (nx :: tl))) ∧
  (IsPuissant hd = true ∨ m !! Sender (tp_signer t) hd = None
     ∨ m !! Sender (tp_signer t) hd = Some [] →
   Shift h t = Some (h, Pop t) ∧ view h (Pop t) = Some (mkView tl m en)).
Proof.
  intros Hwf Hv. split.
  - intros nx rest Hplain Hacc.
    destruct (Shift_replace h t hd tl m en nx rest) as (h' & HS & Hv' & _);
      [done | done | done | done |].
    exists h'. split; [done|]. split; [done|].
    split; [apply sort_queue_Permutation | apply sort_queue_sorted].
  - intros Hcase. split; [by eapply Shift_drop|].
    by rewrite (Pop_view h t _ Hv).
Qed.

(** ** The constructor *)

Section constructor.
Variable signer : Signer.

Lemma newtx_step_nonempty heads m0 from tx0 rest :
  newtx_step signer (Some (heads, m0)) (from, tx0 :: rest)
  = Some (heads ++ option_list (checked_head signer (from, tx0 :: rest)),
          newtx_update signer m0 (from, tx0 :: rest)).
Proof.
  unfold newtx_step, newtx_update, checked_head, checked_backlog. simpl.
  destruct (decide (Sender signer tx0 = from)) as [Heq | Hne].
  - rewrite decide_False by (intros Hn; by apply Hn). simpl. by rewrite drop_0.
  - rewrite decide_True by done. simpl. by rewrite app_nil_r.
Qed.

Lemma newtx_fold (l : list (Address * list Transaction)) heads m0 :
  Forall (λ e, e.2 ≠ []) l →
  foldl (newtx_step signer) (Some (heads, m0)) l
  = Some (heads ++ omap (checked_head signer) l, foldl (newtx_update signer) m0 l).
Proof.
  revert heads m0. induction l as [|[from accTxs] l IH]; intros heads m0 Hne.
  - simpl. by rewrite app_nil_r.
  - apply Forall_cons in Hne as [Hhd Htl]. simpl in Hhd.
    destruct accTxs as [|tx0 rest]; [done|].
    cbn [foldl]. rewrite newtx_step_nonempty, (IH _ _ Htl).
    f_equal. f_equal. rewrite <- app_assoc. f_equal.
    change (omap (checked_head signer) ((from, tx0 :: rest) :: l))
      with (match checked_head signer (from, tx0 :: rest) with
            | Some y => y :: omap (checked_head signer) l
            | None => omap (checked_head signer) l
            end).
    by destruct (checked_head signer (from, tx0 :: rest)).
Qed.

Lemma newtx_update_lookup (l : list (Address * list Transaction)) m0 A :
  NoDup l.*1 →
  foldl (newtx_update signer) m0 l !! A
  = match (list_to_map l : gmap Address (list Transaction)) !! A with
    | Some accTxs => checked_backlog signer A (Some accTxs)
    | None => m0 !! A
    end.
Proof.
  revert m0. induction l as [|[from accTxs] l IH]; intros m0 Hnd.
  - simpl. by rewrite lookup_empty.
  - rewrite fmap_cons in Hnd. apply NoDup_cons in Hnd as [Hnotin Hnd].
    cbn [foldl]. rewrite (IH _ Hnd). rewrite list_to_map_cons.
    assert (Hupd : ∀ B, newtx_update signer m0 (from, accTxs) !! B
                        = if decide (B = from)
                          then checked_backlog signer from (Some accTxs)
                          else m0 !! B).
    { intros B. unfold newtx_update. cbn [fst snd].
      destruct (checked_backlog signer from (Some accTxs)); case_decide; subst.
      - by rewrite lookup_insert_eq.
      - by rewrite lookup_insert_ne.
      - by rewrite lookup_delete_eq.
      - by rewrite lookup_delete_ne. }
    rewrite Hupd.
    destruct (decide (A = from)) as [-> | Hne].
    + rewrite lookup_insert_eq.
      by rewrite (not_elem_of_list_to_map_1 l from).
    + rewrite lookup_insert_ne by done. done.
Qed.

Lemma package_fold (packages : list PuissantPackage) (heads : list Transaction) :
  foldl (λ q each, foldl (λ q tx, q ++ [tx]) q (Txs each)) heads packages
  = heads ++ concat (Txs <$> packages).
Proof.
  assert (Hin : ∀ (l q : list Transaction),
             foldl (λ q tx, q ++ [tx]) q l = q ++ l).
  { induction l as [|x l IH]; intros q; simpl.
    - by rewrite app_nil_r.
    - rewrite IH. by rewrite <- app_assoc. }
  revert heads. induction packages as [|p ps IH]; intros heads; simpl.
  - by rewrite app_nil_r.
  - rewrite Hin, IH. by rewrite <- app_assoc.
Qed.

Lemma NewTransactionsPuissant_result h txs packages m :
  maps h !! txs = Some m →
  map_Forall (λ _ l, l ≠ []) m →
  ∃ m', (∀ A, m' !! A = checked_backlog signer A (m !! A)) ∧
    NewTransactionsPuissant h signer txs packages
    = Some (mkHeap
              (<[fresh (dom (arrays h)) :=
                   sort_queue (checked_heads signer m ++ concat (Txs <$> packages))]>
                 (arrays h))
              (<[txs := m']> (maps h))
              (<[fresh (dom (sets h)) := ∅]> (sets h)),
            {| tp_txs := txs;
               tp_txHeadsAndPuissant :=
                 mkSlice (fresh (dom (arrays h))) 0
                   (length (sort_queue
                      (checked_heads signer m ++ concat (Txs <$> packages))));
               tp_signer := signer;
               tp_enabled := fresh (dom (sets h)) |}).
Proof.
  intros Hm Hne. exists (foldl (newtx_update signer) m (map_to_list m)). split.
  - intros A. rewrite newtx_update_lookup by apply NoDup_fst_map_to_list.
    rewrite list_to_map_to_list. by destruct (m !! A).
  - unfold NewTransactionsPuissant. rewrite Hm. simpl.
    rewrite newtx_fold.
    + simpl. rewrite package_fold. done.
    + apply Forall_forall. intros [from accTxs] Hin. simpl.
      apply elem_of_map_to_list in Hin. exact (Hne _ _ Hin).
Qed.

Lemma elem_of_checked_heads (m : gmap Address (list Transaction)) tx :
  tx ∈ checked_heads signer m ↔
  ∃ from rest, m !! from = Some (tx :: rest) ∧ Sender signer tx = from.
Proof.
  unfold checked_heads. rewrite list_elem_of_omap. split.
  - intros ([from accTxs] & Hin & Hhd). apply elem_of_map_to_list in Hin.
    unfold checked_head in Hhd. simpl in Hhd.
    destruct accTxs as [|tx0 rest]; [done|].
    case_decide; [|done]. injection Hhd as ->. eauto.
  - intros (from & rest & Hm & Hs). exists (from, tx :: rest). split.
    + by apply elem_of_map_to_list.
    + unfold checked_head. simpl. by rewrite decide_True.
Qed.
End constructor.

(** C2: when every account of the caller's map has at least one transaction,
    the constructor returns a controller whose queue is the sort, under the
    comparator, of the heads that pass the signer check followed by every
    transaction of every package; an account keeps the rest of its list as
    backlog when its head passes the check and has no backlog otherwise; the
    enabled set starts empty. *)
Theorem NewTransactionsPuissant_builds_sorted_queue
    h signer txs (packages : list PuissantPackage) m :
  maps h !! txs = Some m →
  map_Forall (λ _ l, l ≠ []) m →
  ∃ h' t v,
    NewTransactionsPuissant h signer txs packages = Some (h', t) ∧
    view h' t = Some v ∧
    v_queue v = sort_queue (checked_heads signer m ++ concat (Txs <$> packages)) ∧
    v_queue v ≡ₚ checked_heads signer m ++ concat (Txs <$> packages) ∧
    StronglySorted notAfter (v_queue v) ∧
    (∀ tx, tx ∈ checked_heads signer m ↔
           ∃ from rest, m !! from = Some (tx :: rest) ∧ Sender signer tx = from) ∧
    (∀ A, v_backlog v !! A = checked_backlog signer A (m !! A)) ∧
    v_enabled v = ∅.
Proof.
  intros Hm Hne.
  destruct (NewTransactionsPuissant_result signer h txs packages m Hm Hne)
    as (m' & Hm' & HN).
  eexists _, _, _. split; [exact HN|]. split.
  { unfold view, slice_contents. simpl. rewrite !lookup_insert_eq. simpl.
    rewrite drop_0. rewrite take_ge by done. reflexivity. }
  simpl. split; [done|]. split; [apply sort_queue_Permutation|].
  split; [apply sort_queue_sorted|].
  split; [apply elem_of_checked_heads|]. done.
Qed.

(** C10: the controller holds the caller's map itself, and the constructor
    has rewritten that map where it lies: an account whose head fails the
    signer check is deleted from it, and a surviving account is left with its
    list without the head; no other map of the heap changes. *)
Theorem NewTransactionsPuissant_mutates_input
    h signer txs (packages : list PuissantPackage) m :
  maps h !! txs = Some m →
  map_Forall (λ _ l, l ≠ []) m →
  ∃ h' t m',
    NewTransactionsPuissant h signer txs packages = Some (h', t) ∧
    tp_txs t = txs ∧
    maps h' !! txs = Some m' ∧
    (∀ A tx0 rest, m !! A = Some (tx0 :: rest) → Sender signer tx0 ≠ A →
       m' !! A = None) ∧
    (∀ A tx0 rest, m !! A = Some (tx0 :: rest) → Sender signer tx0 = A →
       m' !! A = Some rest) ∧
    (∀ A, m !! A = None → m' !! A = None) ∧
    (∀ l, l ≠ txs → maps h' !! l = maps h !! l).
Proof.
  intros Hm Hne.
  destruct (NewTransactionsPuissant_result signer h txs packages m Hm Hne)
    as (m' & Hm' & HN).
  eexists _, _, m'. split; [exact HN|]. simpl.
  split; [done|]. split; [apply lookup_insert_eq|].
  split; [|split; [|split]].
  - intros A tx0 rest HA Hs. rewrite Hm', HA. simpl. by rewrite decide_False.
  - intros A tx0 rest HA Hs. rewrite Hm', HA. simpl. by rewrite decide_True.
  - intros A HA. by rewrite Hm', HA.
  - intros l Hl. by rewrite lookup_insert_ne.
Qed.

(** ** Footprints: what an operation may write *)

Lemma frame_refl c h : frame c h h.
Proof. done. Qed.

Lemma frame_trans c c' h1 h2 h3 :
  same_objects c c' → frame c h1 h2 → frame c' h2 h3 → frame c h1 h3.
Proof.
  intros (Ha & Hm & He & _) (F1 & F2 & F3) (G1 & G2 & G3).
  rewrite Ha in G1. rewrite Hm in G2. rewrite He in G3.
  repeat split; intros l Hl.
  - by rewrite G1, F1.
  - by rewrite G2, F2.
  - by rewrite G3, F3.
Qed.

Lemma Pop_same_objects t : same_objects t (Pop t).
Proof. destruct (Pop_locs t) as (? & ? & ? & ?). done. Qed.

Lemma Peek_rec_same_objects fuel h t t' r :
  Peek_rec fuel h t = Some (t', r) → same_objects t t'.
Proof.
  revert t. induction fuel as [|fuel IH]; intros t; [done|]. simpl.
  case_decide; [by intros [= <- <-]|].
  destruct (slice_index h _ 0) as [next|]; [|done]. simpl.
  destruct (pidIsPuissant (TxPuissantID next)); [|by intros [= <- <-]].
  destruct (sets h !! tp_enabled t); [|done]. simpl.
  case_decide; [by intros [= <- <-]|].
  intros HP. apply IH in HP.
  destruct (Pop_same_objects t) as (? & ? & ? & ?).
  destruct HP as (? & ? & ? & ?). repeat split; congruence.
Qed.

Lemma Shift_frame h c h' c' :
  Shift h c = Some (h', c') → same_objects c c' ∧ frame c h h'.
Proof.
  unfold Shift.
  destruct (slice_index h _ 0) as [hd|]; [|done]. simpl.
  destruct (IsPuissant hd); simpl;
    [intros [= <- <-]; split; [apply Pop_same_objects | done] |].
  destruct (maps h !! tp_txs c) as [m|]; [|done]. simpl.
  destruct (m !! Sender (tp_signer c) hd) as [[|nx rest]|];
    [intros [= <- <-]; split; [apply Pop_same_objects | done] | |
     intros [= <- <-]; split; [apply Pop_same_objects | done]].
  unfold slice_store. case_decide; [|done].
  destruct (arrays h !! sl_arr (tp_txHeadsAndPuissant c)) as [arr|]; [|done].
  simpl. case_decide; [|done]. simpl. unfold sort_slice. simpl.
  rewrite lookup_insert_eq. simpl. intros [= <- <-].
  split; [done|]. repeat split; simpl; intros l Hl; by rewrite ?lookup_insert_ne.
Qed.

Lemma ResetEnable_frame h c pids h' :
  ResetEnable h c pids = Some h' → frame c h h'.
Proof.
  unfold ResetEnable. destruct (sets h !! tp_enabled c); [|done]. simpl.
  intros [= <-]. repeat split; simpl; intros l Hl; by rewrite ?lookup_insert_ne.
Qed.

Lemma step_frame op h c h' c' :
  step op (h, c) = Some (h', c') → same_objects c c' ∧ frame c h h'.
Proof.
  destruct op as [| | |pids]; simpl.
  - destruct (Peek h c) as [[t' r]|] eqn:HP; [|done]. simpl.
    intros [= <- <-]. split; [|done].
    by apply Peek_rec_same_objects in HP.
  - apply Shift_frame.
  - intros [= <- <-]. split; [apply Pop_same_objects | done].
  - destruct (ResetEnable h c pids) as [h1|] eqn:HR; [|done]. simpl.
    intros [= <- <-]. split; [done|]. by eapply ResetEnable_frame.
Qed.

Lemma run_frame ops h c h' c' :
  run ops (h, c) = Some (h', c') → same_objects c c' ∧ frame c h h'.
Proof.
  revert h c. induction ops as [|op ops IH]; intros h c; cbn [run].
  - intros [= <- <-]. done.
  - destruct (step op (h, c)) as [[h1 c1]|] eqn:Hstep; [|done].
    cbn [mbind option_bind]. intros Hrun. apply step_frame in Hstep as [Hso Hfr].
    apply IH in Hrun as [Hso' Hfr']. split.
    + destruct Hso as (? & ? & ? & ?), Hso' as (? & ? & ? & ?).
      repeat split; congruence.
    + by eapply frame_trans.
Qed.

Lemma view_frame t c h h' :
  separate t c → frame c h h' → view h' t = view h t.
Proof.
  intros (Ha & Hm & He) (F1 & F2 & F3).
  unfold view, slice_contents. by rewrite F1, F2, F3.
Qed.

(** ** Copy *)

Lemma map_copy_loop (m : gmap Address (list Transaction)) :
  map_fold (λ acc txsTmp r, <[acc := txsTmp]> r) ∅ m = m.
Proof.
  rewrite map_fold_foldr. rewrite <- (list_to_map_to_list m) at 2.
  unfold list_to_map. induction (map_to_list m) as [|[k x] l IH]; [done|].
  simpl. by rewrite IH.
Qed.

Lemma fresh_lookup {V} (m : gmap loc V) l :
  is_Some (m !! l) → l ≠ fresh (dom m).
Proof.
  intros Hl ->. apply elem_of_dom in Hl. by apply is_fresh in Hl.
Qed.

Lemma Copy_result h t h1 c :
  Copy h (Some t) = Some (h1, Some c) →
  separate t c ∧ view h1 c = view h t ∧ is_Some (view h t) ∧
  frame c h h1.
Proof.
  unfold Copy.
  destruct (slice_contents h (tp_txHeadsAndPuissant t)) as [q|] eqn:Hq; [|done].
  destruct (maps h !! tp_txs t) as [m|] eqn:Hm; [|done].
  destruct (sets h !! tp_enabled t) as [en|] eqn:Hen; [|done].
  simpl. intros [= <- <-].
  assert (Harr : is_Some (arrays h !! sl_arr (tp_txHeadsAndPuissant t))).
  { revert Hq. unfold slice_contents.
    destruct (arrays h !! sl_arr (tp_txHeadsAndPuissant t)); [eauto | done]. }
  split; [|split; [|split]].
  - repeat split; simpl; apply fresh_lookup; eauto.
  - unfold view at 1, slice_contents. simpl. rewrite !lookup_insert_eq. simpl.
    rewrite drop_0, map_copy_loop.
    unfold view. rewrite Hq, Hm, Hen. simpl. do 2 f_equal.
    revert Hq. unfold slice_contents. destruct Harr as [arr ->]. simpl.
    intros [= <-]. rewrite take_take. f_equal. lia.
  - unfold view. rewrite Hq, Hm, Hen. simpl. eauto.
  - repeat split; simpl; intros l Hl; by rewrite lookup_insert_ne.
Qed.

(** C7: after [Copy], the copy denotes the same queue, backlog and enabled
    set as the original and shares no heap object with it: whatever sequence
    of [Peek], [Shift], [Pop] and [ResetEnable] runs on the copy, the
    original's queue, backlog and enabled set stay what they were, and
    whatever runs on the original leaves the copy's as they were. *)
Theorem Copy_is_isolated h t h1 c :
  Copy h (Some t) = Some (h1, Some c) →
  view h1 c = view h t ∧ is_Some (view h t) ∧
  (∀ ops h2 c2, run ops (h1, c) = Some (h2, c2) → view h2 t = view h t) ∧
  (∀ ops h2 t2, run ops (h1, t) = Some (h2, t2) → view h2 c = view h1 c).
Proof.
  intros HC. apply Copy_result in HC as (Hsep & Hv & Hsome & Hfr).
  split; [done|]. split; [done|]. split.
  - intros ops h2 c2 Hrun. apply run_frame in Hrun as [_ Hfr'].
    rewrite (view_frame t c h1 h2 Hsep Hfr').
    by apply (view_frame t c h h1).
  - intros ops h2 t2 Hrun. apply run_frame in Hrun as [_ Hfr'].
    apply (view_frame c t h1 h2); [|done].
    destruct Hsep as (? & ? & ?). repeat split; congruence.
Qed.

(** ** Account sequencing *)

Section sequencing.
Variable signer : Signer.
Variable orig : gmap Address (list Transaction).

Lemma Permutation_short {A} (l1 l2 : list A) :
  l1 ≡ₚ l2 → length l2 ≤ 1 → l1 = l2.
Proof.
  intros Hp Hlen. destruct l2 as [|x [|y l2]]; [| |simpl in Hlen; lia].
  - by apply Permutation_nil_r.
  - by apply Permutation_singleton_r.
Qed.

Lemma plain_of_package (A : Address) (l : list Transaction) :
  Forall (λ tx, IsPuissant tx = true) l → plain_of signer A l = [].
Proof.
  induction 1 as [|tx l Htx _ IH]; [done|].
  unfold plain_of. rewrite filter_cons_False; [exact IH|].
  intros [Hf _]. congruence.
Qed.

Lemma plain_of_sort (A : Address) (q : list Transaction) :
  plain_of signer A (sort_queue q) ≡ₚ plain_of signer A q.
Proof. unfold plain_of. by rewrite sort_queue_Permutation. Qed.

Lemma account_inv_suffix dropped rest m en en' :
  account_inv signer orig (mkView (dropped ++ rest) m en) →
  account_inv signer orig (mkView rest m en').
Proof.
  intros Hinv A. destruct (Hinv A) as (Hlen & Hne & Hbl). simpl in *.
  unfold plain_of in *. rewrite filter_app in *.
  rewrite length_app in Hlen. split; [lia|]. split.
  - intros Hr. apply Hne. intros Happ.
    apply app_eq_nil in Happ as [_ Hnil]. done.
  - intros bl Hm. destruct (Hbl bl Hm) as (l & Hl & Hsuf & Hall).
    exists l. split; [done|]. split; [|done].
    rewrite <- app_assoc in Hsuf. by eapply suffix_app_l.
Qed.

Lemma account_inv_tail q m en :
  account_inv signer orig (mkView q m en) →
  account_inv signer orig (mkView (tail q) m en).
Proof.
  destruct q as [|hd tl]; [done|]. simpl.
  apply (account_inv_suffix [hd] tl).
Qed.

Lemma account_inv_shift hd tl m en nx rest :
  account_inv signer orig (mkView (hd :: tl) m en) →
  IsPuissant hd = false →
  m !! Sender signer hd = Some (nx :: rest) →
  account_inv signer orig
    (mkView (sort_queue (nx :: tl)) (<[Sender signer hd := rest]> m) en).
Proof.
  intros Hinv Hplain Hacc A. simpl.
  destruct (Hinv (Sender signer hd)) as (Hlen & _ & Hbl). simpl in *.
  destruct (Hbl _ Hacc) as (l & Hl & Hsuf & Hall).
  apply Forall_cons in Hall as [Hnx Hrest].
  assert (Hhd : plain_of signer (Sender signer hd) (hd :: tl)
                = hd :: plain_of signer (Sender signer hd) tl).
  { unfold plain_of. by rewrite filter_cons_True. }
  rewrite Hhd in Hlen, Hsuf. simpl in Hlen.
  assert (Htl : plain_of signer (Sender signer hd) tl = []).
  { destruct (plain_of signer (Sender signer hd) tl); [done | simpl in Hlen; lia]. }
  rewrite Htl in Hsuf. simpl in Hsuf.
  pose proof (plain_of_sort A (nx :: tl)) as Hperm.
  destruct (decide (A = Sender signer hd)) as [-> | Hne].
  - assert (Hnew : plain_of signer (Sender signer hd) (nx :: tl)
                   = if IsPuissant nx then [] else [nx]).
    { unfold plain_of in *. destruct (IsPuissant nx) eqn:Hp.
      - rewrite filter_cons_False; [done|]. intros [Hf _]. congruence.
      - rewrite filter_cons_True by done. by rewrite Htl. }
    rewrite Hnew in Hperm.
    apply Permutation_short in Hperm; [|destruct (IsPuissant nx); simpl; lia].
    rewrite Hperm. split; [destruct (IsPuissant nx); simpl; lia|].
    rewrite lookup_insert_eq. split; [eauto|].
    intros bl [= <-]. exists l. split; [done|]. split; [|done].
    apply suffix_cons_l in Hsuf.
    destruct (IsPuissant nx); [by apply suffix_cons_l in Hsuf | done].
  - destruct (Hinv A) as (HlenA & HneA & HblA). simpl in *.
    assert (Hsame : plain_of signer A (nx :: tl) = plain_of signer A (hd :: tl)).
    { unfold plain_of. rewrite !filter_cons_False; [done | |].
      - intros [_ Hs]. by apply Hne.
      - intros [_ Hs]. apply Hne. congruence. }
    rewrite Hsame in Hperm. apply Permutation_short in Hperm; [|done].
    rewrite Hperm. rewrite lookup_insert_ne by done. done.
Qed.

Lemma plain_of_checked_heads_list (l : list (Address * list Transaction)) A :
  NoDup l.*1 →
  plain_of signer A (omap (checked_head signer) l)
  = match (list_to_map l : gmap Address (list Transaction)) !! A with
    | Some (tx0 :: _) =>
        if decide (Sender signer tx0 = A)
        then (if IsPuissant tx0 then [] else [tx0]) else []
    | _ => []
    end.
Proof.
  induction l as [|[from accTxs] l IH]; intros Hnd.
  - simpl. by rewrite lookup_empty.
  - rewrite fmap_cons in Hnd. apply NoDup_cons in Hnd as [Hnotin Hnd].
    cbn [fst] in Hnotin. rewrite list_to_map_cons.
    change (omap (checked_head signer) ((from, accTxs) :: l))
      with (match checked_head signer (from, accTxs) with
            | Some y => y :: omap (checked_head signer) l
            | None => omap (checked_head signer) l
            end).
    specialize (IH Hnd).
    assert (Hch : checked_head signer (from, accTxs)
                  = match accTxs with
                    | tx0 :: _ =>
                        if decide (Sender signer tx0 = from) then Some tx0 else None
                    | [] => None
                    end) by done.
    rewrite Hch. clear Hch.
    destruct (decide (A = from)) as [-> | Hne].
    + rewrite lookup_insert_eq.
      rewrite (not_elem_of_list_to_map_1 l from) in IH by done.
      destruct accTxs as [|tx0 rest]; [done|].
      destruct (decide (Sender signer tx0 = from)) as [Hs | Hs]; [|done].
      unfold plain_of in *. destruct (IsPuissant tx0) eqn:Hp.
      * rewrite filter_cons_False; [done|]. intros [Hf _]. congruence.
      * rewrite filter_cons_True by done. by rewrite IH.
    + rewrite lookup_insert_ne by done. rewrite <- IH.
      destruct accTxs as [|tx0 rest]; [done|].
      destruct (decide (Sender signer tx0 = from)) as [Hs | Hs]; [|done].
      unfold plain_of. rewrite filter_cons_False; [done|].
      intros [_ Hs']. apply Hne. congruence.
Qed.

Lemma account_inv_init (packages : list PuissantPackage) m' en :
  input_wf signer orig packages →
  (∀ A, m' !! A = checked_backlog signer A (orig !! A)) →
  account_inv signer orig
    (mkView (sort_queue (checked_heads signer orig ++ concat (Txs <$> packages)))
            m' en).
Proof.
  intros [Hlists Hpk] Hm' A. simpl.
  assert (HP : plain_of signer A
                 (sort_queue (checked_heads signer orig ++ concat (Txs <$> packages)))
               = match orig !! A with
                 | Some (tx0 :: _) =>
                     if decide (Sender signer tx0 = A)
                     then (if IsPuissant tx0 then [] else [tx0]) else []
                 | _ => []
                 end).
  { apply Permutation_short.
    - rewrite plain_of_sort. unfold plain_of at 1. rewrite filter_app.
      fold (plain_of signer A (checked_heads signer orig)).
      fold (plain_of signer A (concat (Txs <$> packages))).
      rewrite (plain_of_package A (concat (Txs <$> packages))).
      + rewrite app_nil_r. unfold checked_heads.
        rewrite plain_of_checked_heads_list by apply NoDup_fst_map_to_list.
        by rewrite list_to_map_to_list.
      + apply Forall_concat, Forall_fmap. exact Hpk.
    - destruct (orig !! A) as [[|tx0 ?]|]; [simpl; lia | | simpl; lia].
      case_decide; [|simpl; lia]. destruct (IsPuissant tx0); simpl; lia. }
  rewrite HP, Hm'.
  destruct (orig !! A) as [[|tx0 rest]|] eqn:HA; simpl;
    [split; [lia|]; split; done | | split; [lia|]; split; done].
  specialize (Hlists A _ HA) as [_ Hsame]. simpl in Hsame.
  destruct (decide (Sender signer tx0 = A)) as [Hs | Hs];
    [|split; [simpl; lia|]; split; done].
  split; [destruct (IsPuissant tx0); simpl; lia|]. split; [eauto|].
  intros bl [= <-]. exists (tx0 :: rest). split; [done|]. split.
  - destruct (IsPuissant tx0); [by apply suffix_cons_r | done].
  - specialize (Hsame tx0 eq_refl Hs). by apply Forall_cons in Hsame as [_ ?].
Qed.
End sequencing.

(** ** Runs keep account sequencing *)

Lemma ResetEnable_view h t pids v :
  view h t = Some v →
  ∃ h', ResetEnable h t pids = Some h' ∧
        view h' t = Some (mkView (v_queue v) (v_backlog v)
                            (foldl (λ s pid, s ∪ {[pid]}) ∅ pids)) ∧
        (tp_wf h t → tp_wf h' t).
Proof.
  intros Hv. destruct (view_inv _ _ _ Hv) as (Hq & Hmap & Hen).
  unfold ResetEnable. rewrite Hen. simpl. eexists. split; [reflexivity|]. split.
  - unfold view. simpl. rewrite lookup_insert_eq.
    change (slice_contents (mkHeap (arrays h) (maps h) ?s) ?x)
      with (slice_contents h x).
    rewrite Hq, Hmap. done.
  - intros (Hs & Hm & He). split; [exact Hs|]. split; [exact Hm|].
    simpl. rewrite lookup_insert_eq. eauto.
Qed.

Lemma step_sequenced signer orig op st st' :
  sequenced signer orig st → step op st = Some st' → sequenced signer orig st'.
Proof.
  destruct st as [h t], st' as [h' t'].
  intros (Hwf & Hsig & v & Hv & Hinv). simpl in Hwf, Hsig, Hv.
  destruct op as [| | |pids]; simpl.
  - destruct (Peek_view h t v Hwf Hv) as (t1 & HP & Hv1 & Hwf1 & Hsig1).
    rewrite HP. simpl. intros [= <- <-].
    split; [done|]. split; [simpl; congruence|]. eexists. split; [exact Hv1|].
    destruct (purge_split (v_enabled v) (v_queue v)) as (dropped & Hsplit & _ & _).
    apply (account_inv_suffix signer orig dropped _ _ (v_enabled v)).
    rewrite <- Hsplit. by destruct v.
  - destruct v as [[|hd tl] m en].
    + destruct Hwf as (Hs & _ & _).
      destruct (view_inv _ _ _ Hv) as (Hq & _ & _). simpl in Hq.
      pose proof (slice_contents_length _ _ _ Hs Hq) as Hlen. simpl in Hlen.
      by rewrite Shift_empty.
    + destruct (IsPuissant hd) eqn:Hp;
        [|destruct (m !! Sender (tp_signer t) hd) as [[|nx rest]|] eqn:Hacc].
      * rewrite (Shift_drop h t hd tl m en Hv) by eauto. intros [= <- <-].
        split; [by apply Pop_wf|]. split; [simpl; by rewrite Pop_signer|].
        eexists. split; [by apply Pop_view|]. simpl.
        by apply (account_inv_tail signer orig (hd :: tl)).
      * rewrite (Shift_drop h t hd tl m en Hv) by eauto. intros [= <- <-].
        split; [by apply Pop_wf|]. split; [simpl; by rewrite Pop_signer|].
        eexists. split; [by apply Pop_view|]. simpl.
        by apply (account_inv_tail signer orig (hd :: tl)).
      * destruct (Shift_replace h t hd tl m en nx rest Hwf Hv Hp Hacc)
          as (h1 & HS & Hv1 & Hwf1).
        rewrite HS. intros [= <- <-].
        split; [done|]. split; [done|]. eexists. split; [exact Hv1|].
        rewrite Hsig in *. by apply account_inv_shift.
      * rewrite (Shift_drop h t hd tl m en Hv) by eauto. intros [= <- <-].
        split; [by apply Pop_wf|]. split; [simpl; by rewrite Pop_signer|].
        eexists. split; [by apply Pop_view|]. simpl.
        by apply (account_inv_tail signer orig (hd :: tl)).
  - intros [= <- <-].
    split; [by apply Pop_wf|]. split; [simpl; by rewrite Pop_signer|].
    eexists. split; [by apply Pop_view|].
    destruct v as [q m en]. by apply account_inv_tail.
  - destruct (ResetEnable_view h t pids v Hv) as (h1 & HR & Hv1 & Hwf1).
    rewrite HR. simpl. intros [= <- <-].
    split; [by apply Hwf1|]. split; [done|]. eexists. split; [exact Hv1|].
    destruct v as [q m en]. simpl.
    by apply (account_inv_suffix signer orig [] q m en).
Qed.

Lemma run_sequenced signer orig ops st st' :
  sequenced signer orig st → run ops st = Some st' → sequenced signer orig st'.
Proof.
  revert st. induction ops as [|op ops IH]; intros st Hst; cbn [run].
  - by intros [= <-].
  - destruct (step op st) as [st1|] eqn:Hstep; [|done].
    cbn [mbind option_bind]. apply IH. by eapply step_sequenced.
Qed.

Lemma NewTransactionsPuissant_sequenced h signer txs packages m :
  maps h !! txs = Some m → input_wf signer m packages →
  ∃ st, NewTransactionsPuissant h signer txs packages = Some st ∧
        sequenced signer m st.
Proof.
  intros Hm Hin.
  destruct (NewTransactionsPuissant_result signer h txs packages m Hm)
    as (m' & Hm' & HN).
  { intros A l HA. destruct Hin as [Hl _]. by destruct (Hl A l HA). }
  eexists. split; [exact HN|]. split; [|split; [done|]]; simpl.
  - split; [|split; simpl; rewrite lookup_insert_eq; eauto].
    eexists. simpl. split; [apply lookup_insert_eq|]. lia.
  - eexists. split.
    + unfold view, slice_contents. simpl. rewrite !lookup_insert_eq. simpl.
      rewrite drop_0, take_ge by done. reflexivity.
    + by apply account_inv_init.
Qed.

(** C5, as stated, fails: a package brings all of its transactions into the
    queue, and they may come from one sender.  Right after construction the
    queue holds two transactions of account 3. *)
Lemma queue_holds_two_of_one_account :
  ∃ h t v,
    NewTransactionsPuissant ex_no_accounts ex_signer 1%positive [ex_package]
      = Some (h, t) ∧
    view h t = Some v ∧
    all_of ex_signer 3%N (v_queue v) = [ex_p1; ex_p2] ∧
    ¬ length (all_of ex_signer 3%N (v_queue v)) ≤ 1.
Proof.
  eexists _, _, _. split; [reflexivity|]. split; [reflexivity|].
  split; [reflexivity|]. simpl. lia.
Qed.

(** C5, amended: for an input that meets the constructor's contract, in
    every state reached from construction by [Peek], [Shift], [Pop] and
    [ResetEnable], the queue holds at most one plain (non-package)
    transaction of an account, and that entry followed by the account's
    backlog is a tail end of the account's original list, so that plain
    transactions surface in their original order. *)
Theorem account_sequencing h signer txs (packages : list PuissantPackage) m :
  maps h !! txs = Some m → input_wf signer m packages →
  ∃ h0 t0,
    NewTransactionsPuissant h signer txs packages = Some (h0, t0) ∧
    ∀ ops h' t', run ops (h0, t0) = Some (h', t') →
      ∃ v, view h' t' = Some v ∧ account_inv signer m v.
Proof.
  intros Hm Hin.
  destruct (NewTransactionsPuissant_sequenced h signer txs packages m Hm Hin)
    as ([h0 t0] & HN & Hseq).
  exists h0, t0. split; [exact HN|].
  intros ops h' t' Hrun.
  destruct (run_sequenced signer m ops _ _ Hseq Hrun) as (_ & _ & Hv). exact Hv.
Qed.

(** C8: [Pop] leaves a controller with an empty queue as it is, but [Shift]
    reads the head before anything else and faults on the same controller
    (the one built from an empty map and no package). *)
Theorem Shift_faults_on_empty_queue :
  NewTransactionsPuissant ex_no_accounts ex_signer 1%positive []
    = Some (ex_empty_heap, ex_empty) ∧
  view ex_empty_heap ex_empty = Some (mkView [] ∅ ∅) ∧
  Pop ex_empty = ex_empty ∧
  Shift ex_empty_heap ex_empty = None.
Proof. repeat split; reflexivity. Qed.

(** * The scenario of section 8, as instances of the theorems *)

Lemma ex_built_wf : tp_wf ex_built_heap ex_built.
Proof.
  split; [|split; eexists; reflexivity].
  eexists. split; [reflexivity | simpl; lia].
Qed.

Lemma ex_after_b1_wf : tp_wf ex_built_heap ex_after_b1.
Proof.
  split; [|split; eexists; reflexivity].
  eexists. split; [reflexivity | simpl; lia].
Qed.

Lemma ex_at_a1_wf : tp_wf ex_built_heap ex_at_a1.
Proof.
  split; [|split; eexists; reflexivity].
  eexists. split; [reflexivity | simpl; lia].
Qed.

Lemma ex_input_nonempty : map_Forall (λ _ l, l ≠ []) ex_input.
Proof.
  unfold ex_input.
  apply map_Forall_insert_2; [done|].
  apply map_Forall_insert_2; [done|]. apply map_Forall_empty.
Qed.

Lemma ex_input_wf : input_wf ex_signer ex_input [ex_package].
Proof.
  split.
  - unfold ex_input.
    apply map_Forall_insert_2; [split; [done|]; intros tx0 [= <-] _; by repeat constructor|].
    apply map_Forall_insert_2; [split; [done|]; intros tx0 [= <-] _; by repeat constructor|].
    apply map_Forall_empty.
  - by repeat constructor.
Qed.

Lemma Less_is_the_merged_order_witness :
  ∃ r, Less [ex_a1; ex_p1] 1 0 = Some r ∧ (r = true ↔ ranks_before ex_p1 ex_a1).
Proof.
  apply (proj1 Less_is_the_merged_order [ex_a1; ex_p1] 1 0 ex_p1 ex_a1);
    reflexivity.
Defined.

Lemma concrete_bid_comparisons_witness :
  HigherBidGasPrice (bid_package (Some 7%Z)) (bid_package (Some 5%Z)) = Some true ∧
  HigherBidGasPrice (bid_package (Some 5%Z)) (bid_package (Some 5%Z)) = Some false.
Proof.
  split.
  - apply (proj1 concrete_bid_comparisons
             (bid_package (Some 7%Z)) (bid_package (Some 5%Z)) 7%Z 5%Z);
      reflexivity.
  - apply (proj1 concrete_bid_comparisons
             (bid_package (Some 5%Z)) (bid_package (Some 5%Z)) 5%Z 5%Z);
      reflexivity.
Defined.

Lemma NewTransactionsPuissant_builds_sorted_queue_witness :
  ∃ h' t v,
    NewTransactionsPuissant ex_heap ex_signer 1%positive [ex_package] = Some (h', t) ∧
    view h' t = Some v ∧
    v_queue v = [ex_b1; ex_p1; ex_p2; ex_a1] ∧
    StronglySorted notAfter (v_queue v) ∧
    v_backlog v !! 1%N = Some [ex_a2] ∧
    v_enabled v = ∅.
Proof.
  destruct (NewTransactionsPuissant_builds_sorted_queue
              ex_heap ex_signer 1%positive [ex_package] ex_input)
    as (h' & t & v & HN & Hv & Hq & _ & Hsorted & _ & Hbl & Hen);
    [reflexivity | exact ex_input_nonempty |].
  exists h', t, v. split; [exact HN|]. split; [exact Hv|].
  split; [rewrite Hq; reflexivity|]. split; [exact Hsorted|].
  split; [rewrite Hbl; reflexivity | exact Hen].
Defined.

Lemma NewTransactionsPuissant_mutates_input_witness :
  ∃ h' t m',
    NewTransactionsPuissant ex_heap ex_signer 1%positive [ex_package] = Some (h', t) ∧
    tp_txs t = 1%positive ∧
    maps h' !! 1%positive = Some m' ∧
    m' !! 1%N = Some [ex_a2] ∧ m' !! 2%N = Some [].
Proof.
  destruct (NewTransactionsPuissant_mutates_input
              ex_heap ex_signer 1%positive [ex_package] ex_input)
    as (h' & t & m' & HN & Ht & Hm' & _ & Hkeep & _);
    [reflexivity | exact ex_input_nonempty |].
  exists h', t, m'. split; [exact HN|]. split; [exact Ht|]. split; [exact Hm'|].
  split.
  - apply (Hkeep 1%N ex_a1 [ex_a2]); reflexivity.
  - apply (Hkeep 2%N ex_b1 []); reflexivity.
Defined.

Lemma Peek_purges_then_returns_head_witness :
  ∃ t', Peek ex_built_heap ex_after_b1 = Some (t', Some ex_a1) ∧
        view ex_built_heap t' = Some (mkView [ex_a1] ex_backlog ∅).
Proof.
  destruct (Peek_purges_then_returns_head ex_built_heap ex_after_b1
              (mkView [ex_p1; ex_p2; ex_a1] ex_backlog ∅))
    as (t' & dropped & rest & HP & Hv & Hrest & _);
    [exact ex_after_b1_wf | reflexivity |].
  exists t'. rewrite Hrest in HP, Hv. split; [exact HP | exact Hv].
Defined.

Lemma Shift_replaces_head_or_pops_witness :
  ∃ h', Shift ex_built_heap ex_at_a1 = Some (h', ex_at_a1) ∧
        view h' ex_at_a1
        = Some (mkView [ex_a2] (<[1%N := []]> ex_backlog) ∅).
Proof.
  destruct (proj1 (Shift_replaces_head_or_pops ex_built_heap ex_at_a1
                     ex_a1 [] ex_backlog ∅ ex_at_a1_wf eq_refl)
              ex_a2 [] eq_refl eq_refl)
    as (h' & HS & Hv & _).
  exists h'. split; [exact HS | exact Hv].
Defined.

Lemma account_sequencing_witness :
  ∃ h0 t0,
    NewTransactionsPuissant ex_heap ex_signer 1%positive [ex_package]
      = Some (h0, t0) ∧
    ∀ ops h' t', run ops (h0, t0) = Some (h', t') →
      ∃ v, view h' t' = Some v ∧ account_inv ex_signer ex_input v.
Proof.
  apply (account_sequencing ex_heap ex_signer 1%positive [ex_package] ex_input);
    [reflexivity | exact ex_input_wf].
Defined.

Lemma Copy_is_isolated_witness :
  view ex_copied_heap ex_copy = view ex_built_heap ex_built ∧
  is_Some (view ex_built_heap ex_built) ∧
  (∀ ops h2 c2, run ops (ex_copied_heap, ex_copy) = Some (h2, c2) →
     view h2 ex_built = view ex_built_heap ex_built) ∧
  (∀ ops h2 t2, run ops (ex_copied_heap, ex_built) = Some (h2, t2) →
     view h2 ex_copy = view ex_copied_heap ex_copy).
Proof.
  apply (Copy_is_isolated ex_built_heap ex_built ex_copied_heap ex_copy).
  reflexivity.
Defined.

(** The expected orders of section 8: with the package enabled the candidates
    are offered as b1, p1, p2, a1, a2; with the package disabled p1 and p2
    never appear. *)
Example scenario_package_enabled :
  (h ← ResetEnable ex_built_heap ex_built [9%N]; drain 10 (h, ex_built))
  = Some [ex_b1; ex_p1; ex_p2; ex_a1; ex_a2].
Proof. reflexivity. Qed.

Example scenario_package_disabled :
  drain 10 (ex_built_heap, ex_built) = Some [ex_b1; ex_a1; ex_a2].
Proof. reflexivity. Qed.

(** * Further properties of the code *)

(** ** The operations act on what the controller denotes *)

Lemma foldl_add_enabled (pids : list PuissantID) (s0 : gset PuissantID) :
  foldl (λ s pid, s ∪ {[pid]}) s0 pids = s0 ∪ list_to_set pids.
Proof.
  revert s0. induction pids as [|pid pids IH]; intros s0; simpl.
  - by rewrite (right_id_L ∅ (∪)).
  - rewrite IH. by rewrite (assoc_L (∪)).
Qed.

Lemma ResetEnable_exact h t pids v :
  view h t = Some v →
  ∃ h', ResetEnable h t pids = Some h' ∧
        view h' t = Some (mkView (v_queue v) (v_backlog v) (list_to_set pids)) ∧
        (tp_wf h t → tp_wf h' t) ∧ frame t h h'.
Proof.
  intros Hv.
  destruct (ResetEnable_view h t pids v Hv) as (h' & HR & Hv' & Hwf).
  exists h'. split; [done|]. split; [|split; [done | by eapply ResetEnable_frame]].
  rewrite Hv'. rewrite foldl_add_enabled. by rewrite (left_id_L ∅ (∪)).
Qed.

Lemma Shift_pop_view h t hd tl m en :
  view h t = Some (mkView (hd :: tl) m en) → tp_wf h t →
  IsPuissant hd = true ∨ m !! Sender (tp_signer t) hd = None
    ∨ m !! Sender (tp_signer t) hd = Some [] →
  Shift h t = Some (h, Pop t) ∧ tp_wf h (Pop t) ∧
  tp_signer (Pop t) = tp_signer t ∧ view h (Pop t) = Some (mkView tl m en).
Proof.
  intros Hv Hwf Hcase. split; [by eapply Shift_drop|].
  split; [by apply Pop_wf|]. split; [apply Pop_signer|].
  by rewrite (Pop_view h t _ Hv).
Qed.

(** The heap operations compute [view_step] on the denoted values, keep the
    controller well formed, and fault exactly where [view_step] does. *)
Lemma step_view op h t v :
  tp_wf h t → view h t = Some v →
  match step op (h, t) with
  | Some (h', t') =>
      tp_wf h' t' ∧ tp_signer t' = tp_signer t ∧
      ∃ v', view_step (tp_signer t) op v = Some v' ∧ view h' t' = Some v'
  | None => view_step (tp_signer t) op v = None
  end.
Proof.
  intros Hwf Hv. destruct op as [| | |pids]; cbn [step view_step].
  - destruct (Peek_view h t v Hwf Hv) as (t' & HP & Hv' & Hwf' & Hsig).
    rewrite HP. simpl. eauto.
  - destruct v as [[|hd tl] m en]; cbn [v_queue v_backlog v_enabled].
    + destruct Hwf as (Hs & _ & _).
      destruct (view_inv _ _ _ Hv) as (Hq & _ & _). simpl in Hq.
      pose proof (slice_contents_length _ _ _ Hs Hq) as Hlen. simpl in Hlen.
      by rewrite Shift_empty.
    + destruct (IsPuissant hd) eqn:Hp.
      { destruct (Shift_pop_view h t hd tl m en Hv Hwf) as (-> & ? & ? & ?);
          eauto. }
      destruct (m !! Sender (tp_signer t) hd) as [[|nx rest]|] eqn:Hacc.
      * destruct (Shift_pop_view h t hd tl m en Hv Hwf) as (-> & ? & ? & ?);
          eauto.
      * destruct (Shift_replace h t hd tl m en nx rest Hwf Hv Hp Hacc)
          as (h1 & -> & Hv1 & Hwf1). eauto.
      * destruct (Shift_pop_view h t hd tl m en Hv Hwf) as (-> & ? & ? & ?);
          eauto.
  - split; [by apply Pop_wf|]. split; [apply Pop_signer|].
    eexists. split; [reflexivity|]. by apply Pop_view.
  - destruct (ResetEnable_exact h t pids v Hv) as (h' & -> & Hv' & Hwf' & _).
    simpl. split; [by apply Hwf'|]. split; [done|]. eauto.
Qed.

Lemma run_view ops h t v :
  tp_wf h t → view h t = Some v →
  match run ops (h, t) with
  | Some (h', t') =>
      tp_wf h' t' ∧ tp_signer t' = tp_signer t ∧
      ∃ v', view_run (tp_signer t) ops v = Some v' ∧ view h' t' = Some v'
  | None => view_run (tp_signer t) ops v = None
  end.
Proof.
  revert h t v. induction ops as [|op ops IH]; intros h t v Hwf Hv;
    cbn [run view_run].
  - eauto.
  - pose proof (step_view op h t v Hwf Hv) as Hstep.
    destruct (step op (h, t)) as [[h1 t1]|]; cbn [mbind option_bind].
    + destruct Hstep as (Hwf1 & Hsig1 & v1 & -> & Hv1). cbn [mbind option_bind].
      specialize (IH h1 t1 v1 Hwf1 Hv1). rewrite Hsig1 in IH.
      destruct (run ops (h1, t1)) as [[h2 t2]|]; [|done].
      destruct IH as (? & ? & ?). split; [done|]. split; [congruence | done].
    + by rewrite Hstep.
Qed.

(** X1: [ResetEnable] replaces the enabled set by exactly the given ids,
    whatever it held before and whatever the order and repetitions of the
    list; the queue and the backlog are not touched (disabled package
    transactions stay in the queue), and no object of another controller
    changes. *)
Theorem ResetEnable_sets_exactly_the_ids h t pids v :
  view h t = Some v →
  ∃ h', ResetEnable h t pids = Some h' ∧
        view h' t = Some (mkView (v_queue v) (v_backlog v) (list_to_set pids)) ∧
        (∀ pid, pid ∈ (list_to_set pids : gset PuissantID) ↔ pid ∈ pids) ∧
        frame t h h'.
Proof.
  intros Hv.
  destruct (ResetEnable_exact h t pids v Hv) as (h' & HR & Hv' & _ & Hfr).
  exists h'. split; [done|]. split; [done|]. split; [|done].
  intros pid. apply elem_of_list_to_set.
Qed.

Lemma Peek_settled h t v :
  tp_wf h t → view h t = Some v →
  purge (v_enabled v) (v_queue v) = v_queue v →
  Peek h t = Some (t, head (v_queue v)).
Proof.
  intros (Hs & Hm & He) Hv Hpurge.
  destruct (view_inv _ _ _ Hv) as (Hq & Hmap & Hen).
  pose proof (slice_contents_length _ _ _ Hs Hq) as Hlen.
  unfold Peek. cbn [Peek_rec]. case_decide as Hz.
  - destruct (v_queue v); [done | simpl in Hlen; lia].
  - rewrite (slice_index_head _ _ _ Hq).
    destruct (v_queue v) as [|next q]; [simpl in Hlen; lia|]. simpl.
    simpl in Hpurge. unfold eligible in Hpurge.
    destruct (pidIsPuissant (TxPuissantID next)) eqn:Hp; [|done].
    rewrite Hen. simpl. simpl in Hpurge.
    case_decide as Hin; [done|].
    rewrite bool_decide_eq_false_2 in Hpurge by done.
    exfalso. pose proof (purge_split (v_enabled v) q) as (d & Hd & _ & _).
    apply (f_equal length) in Hpurge. rewrite Hd in Hpurge at 2.
    simpl in Hpurge. rewrite length_app in Hpurge. lia.
Qed.

Lemma purge_idemp en (q : list Transaction) : purge en (purge en q) = purge en q.
Proof.
  induction q as [|tx q IH]; [done|]. simpl.
  destruct (eligible en tx) eqn:Hel; [|done]. simpl. by rewrite Hel.
Qed.

(** X2: peeking again changes nothing: after a [Peek], a second [Peek]
    returns the same candidate and leaves the controller exactly as the first
    one left it. *)
Theorem Peek_twice h t t' r :
  tp_wf h t → Peek h t = Some (t', r) → Peek h t' = Some (t', r).
Proof.
  intros Hwf HP.
  assert (Hsome : is_Some (view h t)).
  { destruct Hwf as (Hs & [m Hm] & [en Hen]).
    destruct (slice_wf_contents _ _ Hs) as [q Hq].
    unfold view. rewrite Hq, Hm, Hen. simpl. eauto. }
  destruct Hsome as [v Hv].
  destruct (Peek_view h t v Hwf Hv) as (t1 & HP1 & Hv1 & Hwf1 & _).
  rewrite HP in HP1. injection HP1 as <- ->.
  apply (Peek_settled h t' _ Hwf1 Hv1). simpl. apply purge_idemp.
Qed.

(** X3: on a well-formed controller [Shift] faults exactly when the queue is
    empty. *)
Theorem Shift_faults_iff_queue_empty h t v :
  tp_wf h t → view h t = Some v →
  (Shift h t = None ↔ v_queue v = []).
Proof.
  intros Hwf Hv. pose proof (step_view OpShift h t v Hwf Hv) as Hstep.
  cbn [step view_step] in Hstep. split.
  - intros HS. rewrite HS in Hstep.
    destruct (v_queue v) as [|hd tl]; [done|].
    destruct (IsPuissant hd); [done|].
    by destruct (v_backlog v !! Sender (tp_signer t) hd) as [[|? ?]|].
  - intros Hnil. destruct (Shift h t) as [[h' t']|]; [|done].
    destruct Hstep as (_ & _ & v' & Hvs & _). by rewrite Hnil in Hvs.
Qed.

(** X4: the calling protocol is safe: when [Peek] returns a candidate,
    [Shift] on the controller it returned does not fault, and neither does the
    next [Peek]. *)
Theorem Shift_after_Peek_is_safe h t t' tx :
  tp_wf h t → Peek h t = Some (t', Some tx) →
  ∃ h2 t2, Shift h t' = Some (h2, t2) ∧ tp_wf h2 t2 ∧ is_Some (Peek h2 t2).
Proof.
  intros Hwf HP.
  assert (Hsome : is_Some (view h t)).
  { destruct Hwf as (Hs & [m Hm] & [en Hen]).
    destruct (slice_wf_contents _ _ Hs) as [q Hq].
    unfold view. rewrite Hq, Hm, Hen. simpl. eauto. }
  destruct Hsome as [v Hv].
  destruct (Peek_view h t v Hwf Hv) as (t1 & HP1 & Hv1 & Hwf1 & _).
  rewrite HP in HP1. injection HP1 as <- Hhd.
  pose proof (step_view OpShift h t' _ Hwf1 Hv1) as Hstep.
  cbn [step view_step v_queue] in Hstep.
  destruct (Shift h t') as [[h2 t2]|].
  - destruct Hstep as (Hwf2 & _ & v2 & _ & Hv2).
    exists h2, t2. split; [done|]. split; [done|].
    destruct (Peek_view h2 t2 v2 Hwf2 Hv2) as (t3 & -> & _). eauto.
  - exfalso. destruct (purge (v_enabled v) (v_queue v)) as [|hd tl]; [done|].
    destruct (IsPuissant hd); [done|]. cbn [v_backlog] in Hstep.
    by destruct (v_backlog v !! Sender (tp_signer t') hd) as [[|? ?]|].
Qed.

(** ** Snapshots replay *)

Lemma tp_wf_view h t : tp_wf h t → is_Some (view h t).
Proof.
  intros (Hs & [m Hm] & [en Hen]).
  destruct (slice_wf_contents _ _ Hs) as [q Hq].
  unfold view. rewrite Hq, Hm, Hen. simpl. eauto.
Qed.

Lemma Copy_wf h t h1 c :
  tp_wf h t → Copy h (Some t) = Some (h1, Some c) →
  tp_wf h1 c ∧ tp_signer c = tp_signer t.
Proof.
  intros (Hs & Hm & He). unfold Copy.
  destruct (slice_contents h (tp_txHeadsAndPuissant t)) as [q|] eqn:Hq; [|done].
  destruct (maps h !! tp_txs t) as [m|]; [|done].
  destruct (sets h !! tp_enabled t) as [en|]; [|done].
  simpl. intros [= <- <-]. split; [|done].
  pose proof (slice_contents_length _ _ _ Hs Hq) as Hlen.
  split; [|split; simpl; rewrite lookup_insert_eq; eauto].
  exists q. simpl. split; [apply lookup_insert_eq | lia].
Qed.

(** X5: a snapshot replays as the original would: any sequence of
    operations run on the copy faults or succeeds as the same sequence run on
    the original does, and ends with the same queue, backlog and enabled
    set. *)
Theorem Copy_replays_like_the_original h t h1 c ops :
  tp_wf h t → Copy h (Some t) = Some (h1, Some c) →
  (st ← run ops (h1, c); view st.1 st.2) = (st ← run ops (h, t); view st.1 st.2).
Proof.
  intros Hwf HC.
  destruct (Copy_wf h t h1 c Hwf HC) as [Hwfc Hsig].
  destruct (Copy_result h t h1 c HC) as (_ & Hvc & [v Hv] & _).
  rewrite Hv in Hvc.
  pose proof (run_view ops h1 c v Hwfc Hvc) as Hc.
  pose proof (run_view ops h t v Hwf Hv) as Ht.
  rewrite Hsig in Hc.
  destruct (run ops (h1, c)) as [[h2 c2]|], (run ops (h, t)) as [[h3 t3]|];
    cbn [mbind option_bind fst snd].
  - destruct Hc as (_ & _ & v2 & Hr2 & ->), Ht as (_ & _ & v3 & Hr3 & ->).
    congruence.
  - destruct Hc as (_ & _ & v2 & Hr2 & _). congruence.
  - destruct Ht as (_ & _ & v3 & Hr3 & _). congruence.
  - done.
Qed.

(** ** The queue stays sorted *)

Lemma NewTransactionsPuissant_view h signer txs (packages : list PuissantPackage) m :
  maps h !! txs = Some m → map_Forall (λ _ l, l ≠ []) m →
  ∃ h0 t0 m',
    NewTransactionsPuissant h signer txs packages = Some (h0, t0) ∧
    tp_wf h0 t0 ∧ tp_signer t0 = signer ∧
    (∀ A, m' !! A = checked_backlog signer A (m !! A)) ∧
    view h0 t0
    = Some (mkView (sort_queue (checked_heads signer m ++ concat (Txs <$> packages)))
                   m' ∅).
Proof.
  intros Hm Hne.
  destruct (NewTransactionsPuissant_result signer h txs packages m Hm Hne)
    as (m' & Hm' & HN).
  eexists _, _, m'. split; [exact HN|]. split; [|split; [done|split; [done|]]].
  - split; [|split; simpl; rewrite lookup_insert_eq; eauto].
    eexists. simpl. split; [apply lookup_insert_eq|]. lia.
  - unfold view, slice_contents. simpl. rewrite !lookup_insert_eq. simpl.
    rewrite drop_0, take_ge by done. reflexivity.
Qed.

Lemma purge_suffix en (q : list Transaction) : ∃ d, q = d ++ purge en q.
Proof. destruct (purge_split en q) as (d & Hd & _). eauto. Qed.

Lemma view_step_sorted signer op v v' :
  StronglySorted notAfter (v_queue v) → view_step signer op v = Some v' →
  StronglySorted notAfter (v_queue v').
Proof.
  intros Hs. destruct op as [| | |pids]; cbn [view_step].
  - intros [= <-]. simpl. destruct (purge_suffix (v_enabled v) (v_queue v)) as [d Hd].
    rewrite Hd in Hs. by apply StronglySorted_app_1_r in Hs.
  - destruct (v_queue v) as [|hd tl]; [done|].
    assert (Htl : StronglySorted notAfter tl) by (by inversion Hs).
    destruct (IsPuissant hd); [by intros [= <-]|].
    destruct (v_backlog v !! Sender signer hd) as [[|nx rest]|];
      intros [= <-]; simpl; [done | apply sort_queue_sorted | done].
  - intros [= <-]. simpl. destruct (v_queue v); [done | by inversion Hs].
  - by intros [= <-].
Qed.

Lemma view_run_sorted signer ops v v' :
  StronglySorted notAfter (v_queue v) → view_run signer ops v = Some v' →
  StronglySorted notAfter (v_queue v').
Proof.
  revert v. induction ops as [|op ops IH]; intros v Hs; cbn [view_run].
  - by intros [= <-].
  - destruct (view_step signer op v) as [v1|] eqn:Hstep; [|done].
    cbn [mbind option_bind]. apply IH. by eapply view_step_sorted.
Qed.

(** X6: the queue is sorted under the comparator in every state reached from
    construction by [Peek], [Shift], [Pop] and [ResetEnable], and the
    controller stays well formed. *)
Theorem queue_stays_sorted h signer txs (packages : list PuissantPackage) m :
  maps h !! txs = Some m → map_Forall (λ _ l, l ≠ []) m →
  ∃ h0 t0,
    NewTransactionsPuissant h signer txs packages = Some (h0, t0) ∧
    ∀ ops h' t', run ops (h0, t0) = Some (h', t') →
      tp_wf h' t' ∧
      ∃ v, view h' t' = Some v ∧ StronglySorted notAfter (v_queue v).
Proof.
  intros Hm Hne.
  destruct (NewTransactionsPuissant_view h signer txs packages m Hm Hne)
    as (h0 & t0 & m' & HN & Hwf & Hsig & _ & Hv).
  exists h0, t0. split; [exact HN|]. intros ops h' t' Hrun.
  pose proof (run_view ops h0 t0 _ Hwf Hv) as Hr. rewrite Hrun in Hr.
  destruct Hr as (Hwf' & _ & v' & Hvr & Hv'). split; [done|].
  exists v'. split; [done|].
  eapply view_run_sorted; [|exact Hvr]. simpl. apply sort_queue_sorted.
Qed.

(** X7: on a sorted queue [Peek] returns a best eligible entry: the
    candidate is eligible, and no eligible entry of the queue ranks before
    it. *)
Theorem Peek_returns_a_best_candidate h t v t' tx :
  tp_wf h t → view h t = Some v → StronglySorted notAfter (v_queue v) →
  Peek h t = Some (t', Some tx) →
  tx ∈ v_queue v ∧ eligible (v_enabled v) tx = true ∧
  ∀ e, e ∈ v_queue v → eligible (v_enabled v) e = true → ¬ ranks_before e tx.
Proof.
  intros Hwf Hv Hs HP.
  destruct (Peek_view h t v Hwf Hv) as (t1 & HP1 & _).
  rewrite HP in HP1. injection HP1 as _ Hhd.
  destruct (purge_split (v_enabled v) (v_queue v)) as (d & Hd & Hall & Hel).
  destruct (purge (v_enabled v) (v_queue v)) as [|x rest]; [done|].
  injection Hhd as ->. rewrite Hd in Hs |- *.
  apply StronglySorted_app_1_r in Hs.
  split; [apply elem_of_app; right; by left|]. split; [done|].
  intros e He Hee. apply txLess_false_iff.
  apply elem_of_app in He as [He | He].
  - rewrite Forall_forall in Hall. specialize (Hall e He). congruence.
  - apply elem_of_cons in He as [-> | He].
    + apply txLess_false_iff, ranks_before_irrefl.
    + inversion Hs as [|? ? _ Hfa]; subst.
      rewrite Forall_forall in Hfa. apply (Hfa e He).
Qed.

(** ** Nothing is invented *)

Lemma view_step_held (S : Transaction → Prop) signer op v v' :
  all_held S v → view_step signer op v = Some v' → all_held S v'.
Proof.
  intros [Hq Hb]. destruct op as [| | |pids]; cbn [view_step].
  - intros [= <-]. split; [|done]. simpl.
    destruct (purge_suffix (v_enabled v) (v_queue v)) as [d Hd].
    rewrite Hd in Hq. by apply Forall_app in Hq as [_ ?].
  - destruct (v_queue v) as [|hd tl]; [done|].
    apply Forall_cons in Hq as [_ Htl].
    destruct (IsPuissant hd); [by intros [= <-]|].
    destruct (v_backlog v !! Sender signer hd) as [[|nx rest]|] eqn:Hacc;
      intros [= <-]; [done | | done].
    pose proof (Hb _ _ Hacc) as Hbl. apply Forall_cons in Hbl as [Hnx Hrest].
    split; simpl.
    + rewrite sort_queue_Permutation. by constructor.
    + by apply map_Forall_insert_2.
  - intros [= <-]. split; [|done]. simpl.
    destruct (v_queue v); [done | by apply Forall_cons in Hq as [_ ?]].
  - by intros [= <-].
Qed.

Lemma view_run_held (S : Transaction → Prop) signer ops v v' :
  all_held S v → view_run signer ops v = Some v' → all_held S v'.
Proof.
  revert v. induction ops as [|op ops IH]; intros v Hv; cbn [view_run].
  - by intros [= <-].
  - destruct (view_step signer op v) as [v1|] eqn:Hstep; [|done].
    cbn [mbind option_bind]. apply IH. by eapply view_step_held.
Qed.

Lemma elem_of_concat {A} (x : A) (ls : list (list A)) :
  x ∈ concat ls ↔ ∃ l, l ∈ ls ∧ x ∈ l.
Proof.
  induction ls as [|l ls IH]; simpl.
  - split; [by intros ?%elem_of_nil | by intros (l & ?%elem_of_nil & _)].
  - rewrite elem_of_app, IH. split.
    + intros [Hx | (l' & Hl' & Hx)]; [exists l | exists l'];
        (split; [|done]); [by left | by right].
    + intros (l' & Hl' & Hx). apply elem_of_cons in Hl' as [-> | Hl'];
        [by left | right; eauto].
Qed.

Lemma initial_view_held signer (packages : list PuissantPackage)
    (m m' : gmap Address (list Transaction)) en :
  (∀ A, m' !! A = checked_backlog signer A (m !! A)) →
  all_held (from_input m packages)
    (mkView (sort_queue (checked_heads signer m ++ concat (Txs <$> packages)))
            m' en).
Proof.
  intros Hm'. split; simpl.
  - rewrite sort_queue_Permutation. apply Forall_app. split.
    + apply Forall_forall. intros tx Htx.
      apply elem_of_checked_heads in Htx as (from & rest & Hfrom & _).
      left. exists from, (tx :: rest). split; [done|]. by left.
    + apply Forall_forall. intros tx Htx.
      apply elem_of_concat in Htx as (l & Hl & Htx).
      apply list_elem_of_fmap in Hl as (p & -> & Hp).
      right. eauto.
  - intros A bl HA. rewrite Hm' in HA.
    destruct (m !! A) as [[|tx0 rest]|] eqn:HmA; simpl in HA; [done | | done].
    case_decide; [|done]. injection HA as <-.
    apply Forall_forall. intros tx Htx.
    left. exists A, (tx0 :: rest). split; [done|]. by right.
Qed.

(** X8: the controller never invents a transaction: in every state reached
    from construction, each transaction of the queue and of the backlogs, and
    so each candidate [Peek] returns, was listed under an account of the
    caller's map or belongs to one of the packages. *)
Theorem only_input_transactions_are_offered
    h signer txs (packages : list PuissantPackage) m :
  maps h !! txs = Some m → map_Forall (λ _ l, l ≠ []) m →
  ∃ h0 t0,
    NewTransactionsPuissant h signer txs packages = Some (h0, t0) ∧
    ∀ ops h' t', run ops (h0, t0) = Some (h', t') →
      (∃ v, view h' t' = Some v ∧ all_held (from_input m packages) v) ∧
      ∀ t'' tx, Peek h' t' = Some (t'', Some tx) → from_input m packages tx.
Proof.
  intros Hm Hne.
  destruct (NewTransactionsPuissant_view h signer txs packages m Hm Hne)
    as (h0 & t0 & m' & HN & Hwf & Hsig & Hm' & Hv).
  exists h0, t0. split; [exact HN|]. intros ops h' t' Hrun.
  pose proof (run_view ops h0 t0 _ Hwf Hv) as Hr. rewrite Hrun in Hr.
  destruct Hr as (Hwf' & _ & v' & Hvr & Hv').
  assert (Hheld : all_held (from_input m packages) v').
  { eapply view_run_held; [|exact Hvr]. by apply initial_view_held. }
  split; [eauto|]. intros t'' tx HP.
  destruct (Peek_view h' t' v' Hwf' Hv') as (t1 & HP1 & _).
  rewrite HP in HP1. injection HP1 as _ Hhd.
  destruct (purge_suffix (v_enabled v') (v_queue v')) as [d Hd].
  destruct Hheld as [Hq _]. rewrite Hd in Hq.
  apply Forall_app in Hq as [_ Hq].
  destruct (purge (v_enabled v') (v_queue v')) as [|x rest]; [done|].
  injection Hhd as ->. by apply Forall_cons in Hq as [? _].
Qed.

(** ** Consumption *)

Lemma backlog_size_insert (m : gmap Address (list Transaction)) k l :
  m !! k = None → backlog_size (<[k := l]> m) = length l + backlog_size m.
Proof.
  intros Hk. unfold backlog_size.
  apply (map_fold_insert_L (λ _ (l : list Transaction) n, length l + n)); [|done].
  intros. lia.
Qed.

Lemma backlog_size_take (m : gmap Address (list Transaction)) k nx rest :
  m !! k = Some (nx :: rest) →
  backlog_size (<[k := rest]> m) + 1 = backlog_size m.
Proof.
  intros Hk.
  rewrite <- (insert_delete_id m k (nx :: rest) Hk) at 2.
  rewrite <- (insert_delete_eq m k rest).
  rewrite !backlog_size_insert by apply lookup_delete_eq. simpl. lia.
Qed.

Lemma view_step_size signer op v v' :
  view_step signer op v = Some v' →
  view_size v' ≤ view_size v ∧ (op = OpShift → view_size v' + 1 = view_size v).
Proof.
  unfold view_size. destruct op as [| | |pids]; cbn [view_step].
  - intros [= <-]. simpl. split; [|done].
    destruct (purge_suffix (v_enabled v) (v_queue v)) as [d Hd].
    rewrite Hd at 2. rewrite length_app. lia.
  - destruct (v_queue v) as [|hd tl]; [done|].
    destruct (IsPuissant hd); [intros [= <-]; simpl; lia|].
    destruct (v_backlog v !! Sender signer hd) as [[|nx rest]|] eqn:Hacc;
      intros [= <-]; simpl; [lia | | lia].
    rewrite sort_queue_length. simpl.
    pose proof (backlog_size_take _ _ _ _ Hacc). lia.
  - intros [= <-]. simpl. split; [|done]. destruct (v_queue v); simpl; lia.
  - intros [= <-]. simpl. split; [lia | done].
Qed.

(** X9: every [Shift] that returns consumes exactly one transaction: the
    number of transactions held in the queue and the backlogs together drops
    by one, whichever branch is taken; [Peek], [Pop] and [ResetEnable] never
    raise it.  A loop of advances therefore ends after at most that many
    rounds. *)
Theorem Shift_consumes_one op h t v h' t' :
  tp_wf h t → view h t = Some v → step op (h, t) = Some (h', t') →
  ∃ v', view h' t' = Some v' ∧ view_size v' ≤ view_size v ∧
        (op = OpShift → view_size v' + 1 = view_size v).
Proof.
  intros Hwf Hv Hstep. pose proof (step_view op h t v Hwf Hv) as Hs.
  rewrite Hstep in Hs. destruct Hs as (_ & _ & v' & Hvs & Hv').
  exists v'. split; [done|]. by eapply view_step_size.
Qed.

(** ** An account without a queue entry stays out *)

Lemma view_step_forfeit signer orig op v v' A :
  account_inv signer orig v → plain_of signer A (v_queue v) = [] →
  view_step signer op v = Some v' →
  plain_of signer A (v_queue v') = [] ∧ v_backlog v' !! A = v_backlog v !! A.
Proof.
  intros Hinv Hnone. destruct op as [| | |pids]; cbn [view_step].
  - intros [= <-]. simpl. split; [|done].
    destruct (purge_suffix (v_enabled v) (v_queue v)) as [d Hd].
    rewrite Hd in Hnone. unfold plain_of in *. rewrite filter_app in Hnone.
    by apply app_eq_nil in Hnone as [_ ?].
  - destruct (v_queue v) as [|hd tl] eqn:Hq; [done|].
    assert (Htl : plain_of signer A tl = []).
    { unfold plain_of in *. rewrite filter_cons in Hnone.
      case_decide; [done | exact Hnone]. }
    destruct (IsPuissant hd) eqn:Hp; [by intros [= <-]|].
    destruct (v_backlog v !! Sender signer hd) as [[|nx rest]|] eqn:Hacc;
      intros [= <-]; simpl; [done | | done].
    assert (Hne : Sender signer hd ≠ A).
    { intros Heq. unfold plain_of in Hnone.
      rewrite filter_cons_True in Hnone by done. done. }
    destruct (Hinv (Sender signer hd)) as (_ & _ & Hbl).
    destruct (Hbl _ Hacc) as (l & _ & _ & Hall).
    apply Forall_cons in Hall as [Hnx _].
    split; [|by rewrite lookup_insert_ne].
    apply Permutation_nil_r. rewrite plain_of_sort.
    unfold plain_of in *. rewrite filter_cons_False; [by rewrite Htl|].
    intros [_ Hs]. congruence.
  - intros [= <-]. simpl. split; [|done].
    destruct (v_queue v) as [|hd tl]; [done|]. simpl.
    unfold plain_of in *. rewrite filter_cons in Hnone.
    case_decide; [done | exact Hnone].
  - by intros [= <-].
Qed.

Lemma step_forfeit signer orig op st st' v A :
  sequenced signer orig st → view st.1 st.2 = Some v →
  plain_of signer A (v_queue v) = [] →
  step op st = Some st' →
  ∃ v', view st'.1 st'.2 = Some v' ∧
        plain_of signer A (v_queue v') = [] ∧
        v_backlog v' !! A = v_backlog v !! A.
Proof.
  destruct st as [h t], st' as [h' t'].
  intros (Hwf & Hsig & v0 & Hv0 & Hinv) Hv Hnone Hstep. cbn [fst snd] in *.
  rewrite Hv in Hv0. injection Hv0 as <-.
  pose proof (step_view op h t v Hwf Hv) as Hs. rewrite Hstep in Hs.
  destruct Hs as (_ & _ & v' & Hvs & Hv'). rewrite Hsig in Hvs.
  exists v'. split; [done|]. by eapply view_step_forfeit.
Qed.

Lemma run_forfeit signer orig ops st st' v A :
  sequenced signer orig st → view st.1 st.2 = Some v →
  plain_of signer A (v_queue v) = [] →
  run ops st = Some st' →
  ∃ v', view st'.1 st'.2 = Some v' ∧
        plain_of signer A (v_queue v') = [] ∧
        v_backlog v' !! A = v_backlog v !! A.
Proof.
  revert st v. induction ops as [|op ops IH]; intros st v Hseq Hv Hnone;
    cbn [run].
  - intros [= <-]. eauto.
  - destruct (step op st) as [st1|] eqn:Hstep; [|done].
    cbn [mbind option_bind]. intros Hrun.
    destruct (step_forfeit signer orig op st st1 v A Hseq Hv Hnone Hstep)
      as (v1 & Hv1 & Hnone1 & Hb1).
    destruct (IH st1 v1) as (v' & Hv' & Hnone' & Hb'); [|done|done|done|].
    { by eapply step_sequenced. }
    exists v'. split; [done|]. split; [done | congruence].
Qed.

(** X10: an account that has no plain entry in the queue never gets one
    again, and its backlog is never touched: after [Pop] has dropped an
    account's head, or when the constructor rejected the account, the rest of
    its transactions is not offered in this round, whatever operations
    follow. *)
Theorem account_without_entry_stays_out
    h signer txs (packages : list PuissantPackage) m :
  maps h !! txs = Some m → input_wf signer m packages →
  ∃ h0 t0,
    NewTransactionsPuissant h signer txs packages = Some (h0, t0) ∧
    ∀ ops1 h1 t1 v1 A,
      run ops1 (h0, t0) = Some (h1, t1) → view h1 t1 = Some v1 →
      plain_of signer A (v_queue v1) = [] →
      ∀ ops2 h2 t2, run ops2 (h1, t1) = Some (h2, t2) →
        ∃ v2, view h2 t2 = Some v2 ∧
              plain_of signer A (v_queue v2) = [] ∧
              v_backlog v2 !! A = v_backlog v1 !! A.
Proof.
  intros Hm Hin.
  destruct (NewTransactionsPuissant_sequenced h signer txs packages m Hm Hin)
    as ([h0 t0] & HN & Hseq).
  exists h0, t0. split; [exact HN|].
  intros ops1 h1 t1 v1 A Hrun1 Hv1 Hnone ops2 h2 t2 Hrun2.
  pose proof (run_sequenced signer m ops1 _ _ Hseq Hrun1) as Hseq1.
  exact (run_forfeit signer m ops2 (h1, t1) (h2, t2) v1 A Hseq1 Hv1 Hnone Hrun2).
Qed.

(** ** When the constructor faults *)




(** ** Bids *)

(** X12: for a non-negative incumbent bid and a bump below [2^63 - 100]:
    a package that supersedes has a strictly higher bid, no package
    supersedes itself, a bid that clears a bump clears every smaller one, and
    with bump 0 superseding is having the higher bid. *)
Theorem supersedes_needs_a_higher_bid (pp np : PuissantPackage) (old new bump : Z) :
  pp_bidGasPrice pp = Some old → pp_bidGasPrice np = Some new →
  (0 ≤ old)%Z → (0 ≤ bump < 2 ^ 63 - 100)%Z →
  (ReplacedByNewPuissant pp np bump = Some true →
     HigherBidGasPrice np pp = Some true) ∧
  ReplacedByNewPuissant pp pp bump = Some false ∧
  (∀ bump', (0 ≤ bump' ≤ bump)%Z →
     ReplacedByNewPuissant pp np bump = Some true →
     ReplacedByNewPuissant pp np bump' = Some true) ∧
  ReplacedByNewPuissant pp np 0 = HigherBidGasPrice np pp.
Proof.
  intros Hold Hnew Hpos Hb.
  assert (HH : HigherBidGasPrice np pp = Some (bool_decide (old < new)%Z)).
  { unfold HigherBidGasPrice. rewrite Hold, Hnew, bigCmp_gt. f_equal.
    case_bool_decide; [by apply Z.ltb_lt | apply Z.ltb_ge; lia]. }
  rewrite (ReplacedByNewPuissant_in_range pp np old new bump Hold Hnew Hb).
  rewrite (ReplacedByNewPuissant_in_range pp pp old old bump Hold Hold Hb).
  rewrite (ReplacedByNewPuissant_in_range pp np old new 0 Hold Hnew) by lia.
  rewrite HH. split; [|split; [|split]].
  - intros [= Hd]. apply bool_decide_eq_true in Hd.
    f_equal. apply bool_decide_eq_true. nia.
  - f_equal. apply bool_decide_eq_false. nia.
  - intros bump' Hb' [= Hd]. apply bool_decide_eq_true in Hd.
    rewrite (ReplacedByNewPuissant_in_range pp np old new bump' Hold Hnew) by lia.
    f_equal. apply bool_decide_eq_true. nia.
  - f_equal. apply bool_decide_ext. lia.
Qed.

Lemma HigherBidGasPrice_built pp1 pp2 pid1 txs1 ts1 pid2 txs2 ts2 :
  NewPuissantPackage pid1 txs1 ts1 = Some pp1 →
  NewPuissantPackage pid2 txs2 ts2 = Some pp2 →
  ∃ tx1 tx2, head txs1 = Some tx1 ∧ head txs2 = Some tx2 ∧
    HigherBidGasPrice pp1 pp2 = Some (bool_decide (GasPrice tx2 < GasPrice tx1)%Z).
Proof.
  unfold NewPuissantPackage. rewrite <- !head_lookup.
  destruct (head txs1) as [tx1|]; [|done].
  destruct (head txs2) as [tx2|]; [|done]. simpl.
  intros [= <-] [= <-]. exists tx1, tx2. split; [done|]. split; [done|].
  unfold HigherBidGasPrice. simpl pp_bidGasPrice. rewrite bigCmp_gt. f_equal.
  case_bool_decide; [by apply Z.ltb_lt | apply Z.ltb_ge; lia].
Qed.

(** X13: [NewPuissantPackage] faults exactly on an empty transaction list;
    a package it returns reports the id, list and expiry it was given, counts
    at least one transaction, and its bid is the gas price of the first
    one; and between two packages it built [HigherBidGasPrice] never faults
    and compares the gas prices of their first transactions. *)
Theorem NewPuissantPackage_contract pid txs maxTS :
  (NewPuissantPackage pid txs maxTS = None ↔ txs = []) ∧
  (∀ pp, NewPuissantPackage pid txs maxTS = Some pp →
     ID pp = pid ∧ Txs pp = txs ∧ ExpireAt pp = maxTS ∧
     TxCount pp = length txs ∧ 0 < TxCount pp ∧
     BidGasPrice pp = GasPrice <$> head txs ∧
     ∀ pid' txs' maxTS' pp',
       NewPuissantPackage pid' txs' maxTS' = Some pp' →
       ∃ tx tx', head txs = Some tx ∧ head txs' = Some tx' ∧
         HigherBidGasPrice pp pp'
         = Some (bool_decide (GasPrice tx' < GasPrice tx)%Z)).
Proof.
  split.
  - unfold NewPuissantPackage. destruct txs; simpl; split; done.
  - intros pp Hpp. split; [|split; [|split; [|split; [|split; [|split]]]]].
    1-6: revert Hpp; unfold NewPuissantPackage; destruct txs as [|tx0 rest];
      [done|]; simpl; intros [= <-]; try done.
    + unfold TxCount. simpl. lia.
    + intros pid' txs' maxTS' pp' Hpp'.
      exact (HigherBidGasPrice_built pp pp' _ _ _ _ _ _ Hpp Hpp').
Qed.

(** X14: on a list of packages that all carry a bid, [PuissantPackages.Less]
    faults exactly when an index is out of range, is true exactly when the
    first package's bid is strictly above the second's, and is irreflexive,
    asymmetric and transitive: sorting with it puts higher bids first. *)
Theorem PuissantPackages_Less_orders_by_bid (p : list PuissantPackage) :
  Forall (λ pp, is_Some (pp_bidGasPrice pp)) p →
  (∀ i j, PuissantPackages_Less p i j = None ↔
          ¬ (i < PuissantPackages_Len p ∧ j < PuissantPackages_Len p)) ∧
  (∀ i j pi pj a b, p !! i = Some pi → p !! j = Some pj →
     pp_bidGasPrice pi = Some a → pp_bidGasPrice pj = Some b →
     PuissantPackages_Less p i j = Some (bool_decide (b < a)%Z)) ∧
  (∀ i, PuissantPackages_Less p i i ≠ Some true) ∧
  (∀ i j, PuissantPackages_Less p i j = Some true →
          PuissantPackages_Less p j i = Some false) ∧
  (∀ i j k, PuissantPackages_Less p i j = Some true →
            PuissantPackages_Less p j k = Some true →
            PuissantPackages_Less p i k = Some true).
Proof.
  intros Hall.
  assert (Hval : ∀ i j pi pj a b, p !! i = Some pi → p !! j = Some pj →
     pp_bidGasPrice pi = Some a → pp_bidGasPrice pj = Some b →
     PuissantPackages_Less p i j = Some (bool_decide (b < a)%Z)).
  { intros i j pi pj a b Hi Hj Ha Hb. unfold PuissantPackages_Less.
    rewrite Hi, Hj. simpl. unfold HigherBidGasPrice. rewrite Ha, Hb, bigCmp_gt.
    f_equal. case_bool_decide; [by apply Z.ltb_lt | apply Z.ltb_ge; lia]. }
  assert (Hbid : ∀ i pi, p !! i = Some pi → ∃ a, pp_bidGasPrice pi = Some a).
  { intros i pi Hi. rewrite Forall_forall in Hall.
    apply (Hall pi). by eapply list_elem_of_lookup_2. }
  assert (Hinv : ∀ i j, PuissantPackages_Less p i j = Some true →
     ∃ pi pj a b, p !! i = Some pi ∧ p !! j = Some pj ∧
       pp_bidGasPrice pi = Some a ∧ pp_bidGasPrice pj = Some b ∧ (b < a)%Z).
  { intros i j HL.
    destruct (p !! i) as [pi|] eqn:Hi;
      [|by unfold PuissantPackages_Less in HL; rewrite Hi in HL].
    destruct (p !! j) as [pj|] eqn:Hj;
      [|by unfold PuissantPackages_Less in HL; rewrite Hi, Hj in HL].
    destruct (Hbid i pi Hi) as [a Ha], (Hbid j pj Hj) as [b Hb].
    rewrite (Hval i j pi pj a b Hi Hj Ha Hb) in HL.
    injection HL as HL. apply bool_decide_eq_true in HL.
    exists pi, pj, a, b. done. }
  split; [|split; [exact Hval|split; [|split]]].
  - intros i j. unfold PuissantPackages_Len. split.
    + intros HL [Hi Hj].
      apply lookup_lt_is_Some_2 in Hi as [pi Hi].
      apply lookup_lt_is_Some_2 in Hj as [pj Hj].
      destruct (Hbid i pi Hi) as [a Ha], (Hbid j pj Hj) as [b Hb].
      by rewrite (Hval i j pi pj a b Hi Hj Ha Hb) in HL.
    + intros Hnot. unfold PuissantPackages_Less.
      destruct (p !! i) as [pi|] eqn:Hi; [|done].
      destruct (p !! j) as [pj|] eqn:Hj; [|done].
      exfalso. apply Hnot. split; apply lookup_lt_is_Some; eauto.
  - intros i HL. destruct (Hinv i i HL) as (pi & pj & a & b & Hi & Hj & Ha & Hb & Hlt).
    rewrite Hi in Hj. injection Hj as <-. rewrite Ha in Hb. injection Hb as <-. lia.
  - intros i j HL. destruct (Hinv i j HL) as (pi & pj & a & b & Hi & Hj & Ha & Hb & Hlt).
    rewrite (Hval j i pj pi b a Hj Hi Hb Ha). f_equal.
    apply bool_decide_eq_false. lia.
  - intros i j k HL1 HL2.
    destruct (Hinv i j HL1) as (pi & pj & a & b & Hi & Hj & Ha & Hb & Hlt).
    destruct (Hinv j k HL2) as (pj' & pk & b' & c & Hj' & Hk & Hb' & Hc & Hlt').
    rewrite Hj in Hj'. injection Hj' as <-. rewrite Hb in Hb'. injection Hb' as <-.
    rewrite (Hval i k pi pk a c Hi Hk Ha Hc). f_equal.
    apply bool_decide_eq_true. lia.
Qed.

(** ** Swap *)

Lemma insert_head_Permutation {A} (s : list A) j x y :
  s !! j = Some x → x :: <[j := y]> s ≡ₚ y :: s.
Proof.
  revert j. induction s as [|b s IH]; intros [|j] Hj; simplify_eq/=.
  - apply perm_swap.
  - rewrite perm_swap. rewrite (IH j Hj). apply perm_swap.
Qed.

Lemma slice_swap_Permutation {A} (s : list A) i j xi xj :
  s !! i = Some xi → s !! j = Some xj → <[j := xi]> (<[i := xj]> s) ≡ₚ s.
Proof.
  revert i j. induction s as [|a s IH]; intros [|i] [|j] Hi Hj; simplify_eq/=.
  - done.
  - by apply insert_head_Permutation.
  - by apply insert_head_Permutation.
  - by rewrite (IH i j).
Qed.

Lemma slice_swap_spec {A} (s : list A) i j :
  (slice_swap s i j = None ↔ ¬ (i < length s ∧ j < length s)) ∧
  (∀ s', slice_swap s i j = Some s' →
     s' ≡ₚ s ∧ length s' = length s ∧
     s' !! i = s !! j ∧ s' !! j = s !! i ∧
     (∀ k, k ≠ i → k ≠ j → s' !! k = s !! k) ∧
     slice_swap s' i j = Some s).
Proof.
  unfold slice_swap. split.
  - split.
    + intros HN [Hi Hj].
      apply lookup_lt_is_Some_2 in Hi as [xi Hi].
      apply lookup_lt_is_Some_2 in Hj as [xj Hj].
      by rewrite Hi, Hj in HN.
    + intros Hnot. destruct (s !! j) as [xj|] eqn:Hj; [|done].
      destruct (s !! i) as [xi|] eqn:Hi; [|done].
      exfalso. apply Hnot. split; apply lookup_lt_is_Some; eauto.
  - intros s'. destruct (s !! j) as [xj|] eqn:Hj; [|done].
    destruct (s !! i) as [xi|] eqn:Hi; [|done]. simpl. intros [= <-].
    assert (Hli : i < length s) by (apply lookup_lt_is_Some; eauto).
    assert (Hlj : j < length s) by (apply lookup_lt_is_Some; eauto).
    assert (Hsi : <[j:=xi]> (<[i:=xj]> s) !! i = Some xj).
    { destruct (decide (i = j)) as [-> | Hne].
      - rewrite list_lookup_insert_eq by (by rewrite length_insert). congruence.
      - rewrite list_lookup_insert_ne by done. by apply list_lookup_insert_eq. }
    assert (Hsj : <[j:=xi]> (<[i:=xj]> s) !! j = Some xi).
    { apply list_lookup_insert_eq. by rewrite length_insert. }
    split; [by apply slice_swap_Permutation|].
    split; [by rewrite !length_insert|].
    split; [congruence|]. split; [congruence|]. split.
    + intros k Hki Hkj. by rewrite !list_lookup_insert_ne.
    + rewrite Hsi, Hsj. simpl. f_equal.
      apply list_eq. intros k.
      destruct (decide (k = j)) as [-> | Hkj].
      { rewrite list_lookup_insert_eq by (by rewrite !length_insert). done. }
      rewrite list_lookup_insert_ne by done.
      destruct (decide (k = i)) as [-> | Hki].
      { rewrite list_lookup_insert_eq by (by rewrite !length_insert). done. }
      by rewrite !list_lookup_insert_ne.
Qed.

(** X15: [Swap], on the queue and on a package list, faults exactly when an
    index is out of range; otherwise it exchanges the two entries and nothing
    else (the result is a permutation of the same length), swapping again
    restores the list, and [Less] at the two indices afterwards is [Less] at
    the exchanged indices before. *)
Theorem Swap_exchanges_two_entries :
  (∀ (s : list Transaction) i j,
     (puissantTxQueue_Swap s i j = None ↔ ¬ (i < Len s ∧ j < Len s)) ∧
     ∀ s', puissantTxQueue_Swap s i j = Some s' →
       s' ≡ₚ s ∧ Len s' = Len s ∧ s' !! i = s !! j ∧ s' !! j = s !! i ∧
       (∀ k, k ≠ i → k ≠ j → s' !! k = s !! k) ∧
       puissantTxQueue_Swap s' i j = Some s ∧
       Less s' i j = Less s j i) ∧
  (∀ (p : list PuissantPackage) i j,
     (PuissantPackages_Swap p i j = None ↔
        ¬ (i < PuissantPackages_Len p ∧ j < PuissantPackages_Len p)) ∧
     ∀ p', PuissantPackages_Swap p i j = Some p' →
       p' ≡ₚ p ∧ PuissantPackages_Len p' = PuissantPackages_Len p ∧
       p' !! i = p !! j ∧ p' !! j = p !! i ∧
       (∀ k, k ≠ i → k ≠ j → p' !! k = p !! k) ∧
       PuissantPackages_Swap p' i j = Some p ∧
       PuissantPackages_Less p' i j = PuissantPackages_Less p j i).
Proof.
  split.
  - intros s i j. destruct (slice_swap_spec s i j) as [Hnone Hsome].
    split; [exact Hnone|]. intros s' Hs'.
    destruct (Hsome s' Hs') as (Hp & Hl & Hi & Hj & Hk & Hback).
    repeat (split; [done|]). unfold Less. by rewrite Hi, Hj.
  - intros p i j. destruct (slice_swap_spec p i j) as [Hnone Hsome].
    split; [exact Hnone|]. intros p' Hp'.
    destruct (Hsome p' Hp') as (Hp & Hl & Hi & Hj & Hk & Hback).
    repeat (split; [done|]). unfold PuissantPackages_Less. by rewrite Hi, Hj.
Qed.

(** ** Order inside a sorted queue *)

Lemma StronglySorted_lookup {A} (R : relation A) (q : list A) i j a b :
  StronglySorted R q → q !! i = Some a → q !! j = Some b → i < j → R a b.
Proof.
  intros Hs. revert i j. induction Hs as [|x q Hs IH Hall]; intros i j Hi Hj Hlt.
  - done.
  - destruct j as [|j]; [lia|]. simpl in Hj. destruct i as [|i].
    + simpl in Hi. injection Hi as <-.
      rewrite Forall_forall in Hall. apply Hall. by eapply list_elem_of_lookup_2.
    + simpl in Hi. apply (IH i j); [done | done | lia].
Qed.

(** X16: in a sorted queue an entry never has a lower gas price than a
    later one, and among entries of equal price a package transaction is
    never behind a plain one, package transactions follow their (package
    sequence, inner sequence) order and plain transactions their arrival
    order. *)
Theorem sorted_queue_order (q : list Transaction) i j a b :
  StronglySorted notAfter q → q !! i = Some a → q !! j = Some b → i < j →
  (GasPrice b ≤ GasPrice a)%Z ∧
  (GasPrice a = GasPrice b →
     (IsPuissant b = true → IsPuissant a = true) ∧
     (IsPuissant a = true → IsPuissant b = true →
        (tx_puissantSeq a < tx_puissantSeq b)%Z ∨
        (tx_puissantSeq a = tx_puissantSeq b ∧
         (tx_puissantTxSeq a ≤ tx_puissantTxSeq b)%Z)) ∧
     (IsPuissant a = false → IsPuissant b = false → (Time a ≤ Time b)%Z)).
Proof.
  intros Hs Hi Hj Hlt.
  pose proof (StronglySorted_lookup notAfter q i j a b Hs Hi Hj Hlt) as Hab.
  unfold notAfter in Hab. apply txLess_false_iff in Hab.
  unfold ranks_before in Hab. split.
  - destruct (Z.le_gt_cases (GasPrice b) (GasPrice a)) as [Hle | Hgt]; [done|].
    exfalso. apply Hab. left. lia.
  - intros Hgp. split; [|split].
    + intros Hb. destruct (IsPuissant a) eqn:Ha; [done|].
      exfalso. apply Hab. right. split; [done|]. right. right. done.
    + intros Ha Hb.
      destruct (Z.lt_trichotomy (tx_puissantSeq a) (tx_puissantSeq b))
        as [Hl | [He | Hg]]; [by left | |].
      * right. split; [done|].
        destruct (Z.le_gt_cases (tx_puissantTxSeq a) (tx_puissantTxSeq b))
          as [Hle | Hgt]; [done|].
        exfalso. apply Hab. right. split; [done|]. right. left.
        split; [done|]. split; [done|]. right. split; [done | lia].
      * exfalso. apply Hab. right. split; [done|]. right. left.
        split; [done|]. split; [done|]. left. lia.
    + intros Ha Hb.
      destruct (Z.le_gt_cases (Time a) (Time b)) as [Hle | Hgt]; [done|].
      exfalso. apply Hab. right. split; [done|]. left.
      split; [done|]. split; [done | lia].
Qed.

(** ** Enabling and purging *)

(** X17: the purge of [Peek] is permanent: whatever ids [ResetEnable]
    enables afterwards, the queue is the one [Peek] left, so a package
    transaction that was dropped while its package was disabled does not come
    back when the package is enabled again. *)
Theorem purged_entries_do_not_return h t v t' r pids :
  tp_wf h t → view h t = Some v → Peek h t = Some (t', r) →
  ∃ h', ResetEnable h t' pids = Some h' ∧
        view h' t'
        = Some (mkView (purge (v_enabled v) (v_queue v)) (v_backlog v)
                       (list_to_set pids)).
Proof.
  intros Hwf Hv HP.
  destruct (Peek_view h t v Hwf Hv) as (t1 & HP1 & Hv1 & _).
  rewrite HP in HP1. injection HP1 as <- _.
  destruct (ResetEnable_exact h t' pids _ Hv1) as (h' & HR & Hv' & _).
  exists h'. done.
Qed.

Lemma view_run_enabled signer ops v v' :
  Forall (λ op, resets op = false) ops →
  view_run signer ops v = Some v' → v_enabled v' = v_enabled v.
Proof.
  revert v. induction ops as [|op ops IH]; intros v Hops; cbn [view_run].
  - by intros [= <-].
  - apply Forall_cons in Hops as [Hop Hops].
    destruct (view_step signer op v) as [v1|] eqn:Hstep; [|done].
    cbn [mbind option_bind]. intros Hrun. rewrite (IH v1 Hops Hrun).
    destruct op as [| | |pids]; cbn [view_step] in Hstep; [| | |done].
    + by injection Hstep as <-.
    + destruct (v_queue v) as [|hd tl]; [done|].
      destruct (IsPuissant hd); [by injection Hstep as <-|].
      by destruct (v_backlog v !! Sender signer hd) as [[|nx rest]|];
        injection Hstep as <-.
    + by injection Hstep as <-.
Qed.

(** X18: the enabled set starts empty and only [ResetEnable] changes it:
    as long as [ResetEnable] has not been called, [Peek] never returns a
    package transaction. *)
Theorem no_package_transaction_before_ResetEnable
    h signer txs (packages : list PuissantPackage) m :
  maps h !! txs = Some m → map_Forall (λ _ l, l ≠ []) m →
  ∃ h0 t0,
    NewTransactionsPuissant h signer txs packages = Some (h0, t0) ∧
    ∀ ops h' t' t'' tx,
      Forall (λ op, resets op = false) ops →
      run ops (h0, t0) = Some (h', t') →
      Peek h' t' = Some (t'', Some tx) → IsPuissant tx = false.
Proof.
  intros Hm Hne.
  destruct (NewTransactionsPuissant_view h signer txs packages m Hm Hne)
    as (h0 & t0 & m' & HN & Hwf & Hsig & _ & Hv).
  exists h0, t0. split; [exact HN|]. intros ops h' t' t'' tx Hops Hrun HP.
  pose proof (run_view ops h0 t0 _ Hwf Hv) as Hr. rewrite Hrun in Hr.
  destruct Hr as (Hwf' & _ & v' & Hvr & Hv').
  pose proof (view_run_enabled _ _ _ _ Hops Hvr) as Hen. simpl in Hen.
  destruct (Peek_view h' t' v' Hwf' Hv') as (t1 & HP1 & _).
  rewrite HP in HP1. injection HP1 as _ Hhd.
  destruct (purge_split (v_enabled v') (v_queue v')) as (d & _ & _ & Hel).
  destruct (purge (v_enabled v') (v_queue v')) as [|x rest]; [done|].
  injection Hhd as <-. rewrite Hen in Hel. unfold eligible in Hel.
  unfold IsPuissant. destruct (pidIsPuissant (TxPuissantID tx)); [|done].
  simpl in Hel. by rewrite bool_decide_eq_false_2 in Hel.
Qed.

(** * The further properties on the scenario *)

Lemma ex_empty_wf : tp_wf ex_empty_heap ex_empty.
Proof.
  split; [|split; eexists; reflexivity].
  eexists. split; [reflexivity | simpl; lia].
Qed.

Lemma ex_queue_sorted :
  StronglySorted notAfter [ex_b1; ex_p1; ex_p2; ex_a1].
Proof. apply (sort_queue_sorted [ex_a1; ex_b1; ex_p1; ex_p2]). Qed.

Lemma ResetEnable_sets_exactly_the_ids_witness :
  ∃ h', ResetEnable ex_built_heap ex_built [9%N; 9%N] = Some h' ∧
        view h' ex_built
        = Some (mkView [ex_b1; ex_p1; ex_p2; ex_a1] ex_backlog
                       (list_to_set [9%N; 9%N])) ∧
        (∀ pid, pid ∈ (list_to_set [9%N; 9%N] : gset PuissantID)
                ↔ pid ∈ [9%N; 9%N]) ∧
        frame ex_built ex_built_heap h'.
Proof.
  apply (ResetEnable_sets_exactly_the_ids ex_built_heap ex_built [9%N; 9%N]
           (mkView [ex_b1; ex_p1; ex_p2; ex_a1] ex_backlog ∅)).
  reflexivity.
Defined.

Lemma Peek_twice_witness :
  Peek ex_built_heap ex_at_a1 = Some (ex_at_a1, Some ex_a1).
Proof.
  apply (Peek_twice ex_built_heap ex_after_b1 ex_at_a1 (Some ex_a1));
    [exact ex_after_b1_wf | reflexivity].
Defined.

Lemma Shift_faults_iff_queue_empty_witness :
  Shift ex_empty_heap ex_empty = None ↔ @nil Transaction = [].
Proof.
  apply (Shift_faults_iff_queue_empty ex_empty_heap ex_empty (mkView [] ∅ ∅));
    [exact ex_empty_wf | reflexivity].
Defined.

Lemma Shift_after_Peek_is_safe_witness :
  ∃ h2 t2, Shift ex_built_heap ex_at_a1 = Some (h2, t2) ∧ tp_wf h2 t2 ∧
           is_Some (Peek h2 t2).
Proof.
  apply (Shift_after_Peek_is_safe ex_built_heap ex_after_b1 ex_at_a1 ex_a1);
    [exact ex_after_b1_wf | reflexivity].
Defined.

Lemma Copy_replays_like_the_original_witness :
  (st ← run [OpPeek; OpShift; OpPeek] (ex_copied_heap, ex_copy); view st.1 st.2)
  = (st ← run [OpPeek; OpShift; OpPeek] (ex_built_heap, ex_built); view st.1 st.2).
Proof.
  apply (Copy_replays_like_the_original ex_built_heap ex_built
           ex_copied_heap ex_copy); [exact ex_built_wf | reflexivity].
Defined.

Lemma queue_stays_sorted_witness :
  ∃ h0 t0,
    NewTransactionsPuissant ex_heap ex_signer 1%positive [ex_package]
      = Some (h0, t0) ∧
    ∀ ops h' t', run ops (h0, t0) = Some (h', t') →
      tp_wf h' t' ∧
      ∃ v, view h' t' = Some v ∧ StronglySorted notAfter (v_queue v).
Proof.
  apply (queue_stays_sorted ex_heap ex_signer 1%positive [ex_package] ex_input);
    [reflexivity | exact ex_input_nonempty].
Defined.

Lemma Peek_returns_a_best_candidate_witness :
  ex_b1 ∈ [ex_b1; ex_p1; ex_p2; ex_a1] ∧ eligible ∅ ex_b1 = true ∧
  ∀ e, e ∈ [ex_b1; ex_p1; ex_p2; ex_a1] → eligible ∅ e = true →
       ¬ ranks_before e ex_b1.
Proof.
  apply (Peek_returns_a_best_candidate ex_built_heap ex_built
           (mkView [ex_b1; ex_p1; ex_p2; ex_a1] ex_backlog ∅) ex_built ex_b1);
    [exact ex_built_wf | reflexivity | exact ex_queue_sorted | reflexivity].
Defined.

Lemma only_input_transactions_are_offered_witness :
  ∃ h0 t0,
    NewTransactionsPuissant ex_heap ex_signer 1%positive [ex_package]
      = Some (h0, t0) ∧
    ∀ ops h' t', run ops (h0, t0) = Some (h', t') →
      (∃ v, view h' t' = Some v ∧ all_held (from_input ex_input [ex_package]) v) ∧
      ∀ t'' tx, Peek h' t' = Some (t'', Some tx) →
                from_input ex_input [ex_package] tx.
Proof.
  apply (only_input_transactions_are_offered
           ex_heap ex_signer 1%positive [ex_package] ex_input);
    [reflexivity | exact ex_input_nonempty].
Defined.

Lemma Shift_consumes_one_witness :
  ∃ v', view ex_shifted_heap ex_at_a1 = Some v' ∧
        view_size v' ≤ view_size (mkView [ex_a1] ex_backlog ∅) ∧
        (OpShift = OpShift →
         view_size v' + 1 = view_size (mkView [ex_a1] ex_backlog ∅)).
Proof.
  apply (Shift_consumes_one OpShift ex_built_heap ex_at_a1
           (mkView [ex_a1] ex_backlog ∅) ex_shifted_heap ex_at_a1);
    [exact ex_at_a1_wf | reflexivity | reflexivity].
Defined.

Lemma account_without_entry_stays_out_witness :
  ∃ h0 t0,
    NewTransactionsPuissant ex_heap ex_signer 1%positive [ex_package]
      = Some (h0, t0) ∧
    ∀ ops1 h1 t1 v1 A,
      run ops1 (h0, t0) = Some (h1, t1) → view h1 t1 = Some v1 →
      plain_of ex_signer A (v_queue v1) = [] →
      ∀ ops2 h2 t2, run ops2 (h1, t1) = Some (h2, t2) →
        ∃ v2, view h2 t2 = Some v2 ∧
              plain_of ex_signer A (v_queue v2) = [] ∧
              v_backlog v2 !! A = v_backlog v1 !! A.
Proof.
  apply (account_without_entry_stays_out
           ex_heap ex_signer 1%positive [ex_package] ex_input);
    [reflexivity | exact ex_input_wf].
Defined.


Lemma supersedes_needs_a_higher_bid_witness :
  (ReplacedByNewPuissant (bid_package (Some 100%Z)) (bid_package (Some 111%Z)) 10
     = Some true →
   HigherBidGasPrice (bid_package (Some 111%Z)) (bid_package (Some 100%Z))
     = Some true) ∧
  ReplacedByNewPuissant (bid_package (Some 100%Z)) (bid_package (Some 100%Z)) 10
    = Some false ∧
  (∀ bump', (0 ≤ bump' ≤ 10)%Z →
     ReplacedByNewPuissant (bid_package (Some 100%Z)) (bid_package (Some 111%Z)) 10
       = Some true →
     ReplacedByNewPuissant (bid_package (Some 100%Z)) (bid_package (Some 111%Z)) bump'
       = Some true) ∧
  ReplacedByNewPuissant (bid_package (Some 100%Z)) (bid_package (Some 111%Z)) 0
  = HigherBidGasPrice (bid_package (Some 111%Z)) (bid_package (Some 100%Z)).
Proof.
  apply (supersedes_needs_a_higher_bid
           (bid_package (Some 100%Z)) (bid_package (Some 111%Z)) 100 111 10);
    [reflexivity | reflexivity | lia | lia].
Defined.

Lemma PuissantPackages_Less_orders_by_bid_witness :
  PuissantPackages_Less [ex_pkg_low; ex_pkg_high] 1 0 = Some true ∧
  PuissantPackages_Less [ex_pkg_low; ex_pkg_high] 0 1 = Some false.
Proof.
  assert (Hall : Forall (λ pp, is_Some (pp_bidGasPrice pp)) [ex_pkg_low; ex_pkg_high])
    by (repeat constructor; eexists; reflexivity).
  destruct (PuissantPackages_Less_orders_by_bid [ex_pkg_low; ex_pkg_high] Hall)
    as (_ & Hval & _ & Hasym & _).
  assert (H10 : PuissantPackages_Less [ex_pkg_low; ex_pkg_high] 1 0 = Some true).
  { apply (Hval 1 0 ex_pkg_high ex_pkg_low 7%Z 5%Z); reflexivity. }
  split; [exact H10 | exact (Hasym 1 0 H10)].
Defined.

Lemma sorted_queue_order_witness :
  (GasPrice ex_p2 ≤ GasPrice ex_p1)%Z ∧
  (GasPrice ex_p1 = GasPrice ex_p2 →
     (IsPuissant ex_p2 = true → IsPuissant ex_p1 = true) ∧
     (IsPuissant ex_p1 = true → IsPuissant ex_p2 = true →
        (tx_puissantSeq ex_p1 < tx_puissantSeq ex_p2)%Z ∨
        (tx_puissantSeq ex_p1 = tx_puissantSeq ex_p2 ∧
         (tx_puissantTxSeq ex_p1 ≤ tx_puissantTxSeq ex_p2)%Z)) ∧
     (IsPuissant ex_p1 = false → IsPuissant ex_p2 = false →
        (Time ex_p1 ≤ Time ex_p2)%Z)).
Proof.
  apply (sorted_queue_order [ex_b1; ex_p1; ex_p2; ex_a1] 1 2 ex_p1 ex_p2);
    [exact ex_queue_sorted | reflexivity | reflexivity | lia].
Defined.

Lemma purged_entries_do_not_return_witness :
  ∃ h', ResetEnable ex_built_heap ex_at_a1 [9%N] = Some h' ∧
        view h' ex_at_a1
        = Some (mkView [ex_a1] ex_backlog (list_to_set [9%N])).
Proof.
  exact (purged_entries_do_not_return ex_built_heap ex_after_b1
           (mkView [ex_p1; ex_p2; ex_a1] ex_backlog ∅) ex_at_a1 (Some ex_a1) [9%N]
           ex_after_b1_wf eq_refl eq_refl).
Defined.

Lemma no_package_transaction_before_ResetEnable_witness :
  ∃ h0 t0,
    NewTransactionsPuissant ex_heap ex_signer 1%positive [ex_package]
      = Some (h0, t0) ∧
    ∀ ops h' t' t'' tx,
      Forall (λ op, resets op = false) ops →
      run ops (h0, t0) = Some (h', t') →
      Peek h' t' = Some (t'', Some tx) → IsPuissant tx = false.
Proof.
  apply (no_package_transaction_before_ResetEnable
           ex_heap ex_signer 1%positive [ex_package] ex_input);
    [reflexivity | exact ex_input_nonempty].
Defined.
